(** * gen_expr.py: random arithmetic expression trees and their indented printing

    A shallow embedding of [src/samples/gen_expr.py].

    - Python values are embedded as the script builds them: a leaf is a bare
      number ([int] or [float]); an operator node is a Python list whose first
      element is the operator name and whose other elements are the operands.
    - The module [random] is a process-wide generator.  It is embedded as an
      explicit state threaded through the generator functions: a tape of draws
      and the number of draws already served.  Every sequence of answers the
      library can give is the behaviour of some tape.
    - [print] writes to standard output; standard output is a string that the
      printer extends.
    - [while True] and the recursion on an unvalidated integer are embedded
      with fuel: [OutOfFuel] is the only outcome that depends on the fuel, and
      a call returns when some amount of fuel yields [Ret].
    - The generator is read twice: [rand_expr] on a stack without bound, and
      [rand_expr_framed] under the interpreter's recursion limit, where a
      call too deep raises [RecursionError].  The two agree wherever the
      second does not overflow. *)

From Stdlib Require Import ZArith NArith Bool List String Ascii Lia PeanoNat DecimalString.
Import ListNotations.

Local Open Scope string_scope.
Local Open Scope Z_scope.

(** ** Python builtins the script relies on

    [float], [str] on a float and [int] on a command-line word are Python's,
    not the script's: they are an interface here.  [int_of_str s = None] stands
    for the [ValueError] of [int(s)]. *)

Class Builtins : Type := {
  float : Type;
  str_float : float -> string;
  int_of_str : string -> option Z
}.

(** The exceptions the script can meet: the two that [random] raises and the
    interpreter's own on a call too deep. *)
Inductive exn : Type :=
| ValueError
| IndexError
| RecursionError.

(** The line terminator written by [print]. *)
Definition nl : string := String (ascii_of_nat 10) EmptyString.

(** [s * n] on strings: [n] copies of [s], none when [n <= 0]. *)
Fixpoint str_repeat (s : string) (n : nat) : string :=
  match n with
  | O => EmptyString
  | S n' => s ++ str_repeat s n'
  end.

Definition str_mul (s : string) (n : Z) : string := str_repeat s (Z.to_nat n).

(** [sub in s] on strings. *)
Definition str_in (sub s : string) : bool :=
  match index 0 sub s with
  | Some _ => true
  | None => false
  end.

(** [str] on an [int]: decimal digits, with a leading minus sign below zero. *)
Definition str_int (z : Z) : string := NilZero.string_of_int (Z.to_int z).

(** Number of line terminators in a text. *)
Fixpoint newlines (s : string) : nat :=
  match s with
  | EmptyString => O
  | String c s' => ((if Ascii.eqb c (ascii_of_nat 10) then 1 else 0) + newlines s')%nat
  end.

Section Embedding.

Context `{Builtins}.

(** ** Values *)

Inductive number : Type :=
| PyInt (z : Z)
| PyFloat (r : float).

(** An expression is a number or the list [[op, arg, ...]]. *)
#[warnings="-register-all"]
Inductive expr : Type :=
| Num (v : number)
| PyList (op : string) (args : list expr).

(** [len] of an operator list. *)
Definition len (e : expr) : Z :=
  match e with
  | Num _ => 0
  | PyList _ args => 1 + Z.of_nat (List.length args)
  end.

(** [type(expr) == int or type(expr) == float] *)
Definition is_number (e : expr) : bool :=
  match e with
  | Num _ => true
  | PyList _ _ => false
  end.

Definition str (v : number) : string :=
  match v with
  | PyInt z => str_int z
  | PyFloat r => str_float r
  end.

(** The three shapes of the specification's data model. *)
Definition Leaf (v : number) : expr := Num v.
Definition Unary (op : string) (child : expr) : expr := PyList op [child].
Definition Binary (op : string) (left right : expr) : expr := PyList op [left; right].

(** ** The random source *)

Record Random : Type := {
  ints : nat -> N;
  reals : nat -> float;
  calls : nat
}.

Definition advance (g : Random) : Random :=
  {| ints := ints g; reals := reals g; calls := S (calls g) |}.

Inductive outcome (A : Type) : Type :=
| Ret (a : A) (g : Random)
| Raise (e : exn)
| OutOfFuel.

Definition M (A : Type) : Type := Random -> outcome A.

Definition ret {A : Type} (a : A) : M A := fun g => Ret A a g.

Definition bind {A B : Type} (m : M A) (k : A -> M B) : M B :=
  fun g =>
    match m g with
    | Ret _ a g' => k a g'
    | Raise _ e => Raise B e
    | OutOfFuel _ => OutOfFuel B
    end.

Definition out_of_fuel {A : Type} : M A := fun _ => OutOfFuel A.

(** [below m m']: wherever [m] does not run out of fuel, [m'] agrees with it. *)
Definition below {A : Type} (m m' : M A) : Prop :=
  forall g, m g <> OutOfFuel A -> m' g = m g.

End Embedding.

Arguments Ret {_ A} a g.
Arguments Raise {_ A} e.
Arguments OutOfFuel {_ A}.

Declare Scope py_scope.
Delimit Scope py_scope with py.
Notation "x <- m ;; k" := (bind m (fun x => k))
  (at level 61, m at next level, right associativity) : py_scope.

Section Program.

Context `{Builtins}.

Local Open Scope py_scope.

(** ** The library [random] *)

(** [random.randint(a, b)]: an integer of [a..b], [ValueError] on an empty
    range.  The answer is the next cell of the tape, brought into the range. *)
Definition randint (a b : Z) : M Z :=
  fun g =>
    if b <? a then Raise ValueError
    else Ret (a + Z.of_N (ints g (calls g)) mod (b - a + 1)) (advance g).

(** [random.choice(seq)]: an element of [seq], [IndexError] when it is
    empty.  The index is the next cell of the tape, brought below [len(seq)]. *)
Definition choice {A : Type} (seq : list A) : M A :=
  fun g =>
    match seq with
    | [] => Raise IndexError
    | x :: _ =>
        Ret (nth (N.to_nat (ints g (calls g) mod N.of_nat (List.length seq))) seq x) (advance g)
    end.

(** [random.random()]: the next real of the tape. *)
Definition random : M float :=
  fun g => Ret (reals g (calls g)) (advance g).

(** ** The generator *)

Definition rand_instr2 (a b : expr) : M expr :=
  op <- choice ["add"; "sub"; "mult"] ;;
  ret (PyList op [a; b]).

Definition rand_instr1 (a : expr) : M expr :=
  op <- choice ["neg"] ;;
  ret (PyList op [a]).

Fixpoint rand_no_exp (fuel : nat) : M float :=
  match fuel with
  | O => out_of_fuel
  | S fuel' =>
      r <- random ;;
      if negb (str_in "e" (str_float r)) then ret r
      else rand_no_exp fuel'
  end.

Definition rand_val (fuel : nat) : M number :=
  c <- randint 0 1 ;;
  if negb (c =? 0) then
    z <- randint (-1000) 1000 ;;
    ret (PyInt z)
  else
    r <- rand_no_exp fuel ;;
    ret (PyFloat r).

Fixpoint rand_expr (fuel : nat) (max_rec : Z) : M expr :=
  match fuel with
  | O => out_of_fuel
  | S fuel' =>
      r <- randint 0 max_rec ;;
      if (r =? 0) || (max_rec <=? 0) then
        v <- rand_val fuel' ;;
        ret (Num v)
      else if r <=? 1 then
        a <- rand_expr fuel' (max_rec - 1) ;;
        rand_instr1 a
      else
        a <- rand_expr fuel' (max_rec - 1) ;;
        b <- rand_expr fuel' (max_rec - 1) ;;
        rand_instr2 a b
  end.

(** ** The printer *)

Definition stdout : Type := string.

(** [print(s, end=e)] *)
Definition print (s e : string) (out : stdout) : stdout := out ++ s ++ e.

(** The text put before a value or an operator. *)
Definition spacing (indent : Z) (newline : bool) : string :=
  if newline then str_mul " " indent else " ".

(** The three branches: a number, a list with [len(expr) == 2] (the operator
    and one operand), any other list. *)
Fixpoint print_expr (e : expr) (indent : Z) (newline : bool) (out : stdout) : stdout :=
  match e with
  | Num v => print (spacing indent newline ++ str v) nl out
  | PyList op [a] =>
      print_expr a (indent + 1) false (print (spacing indent newline ++ op) "" out)
  | PyList op args =>
      fold_left (fun o a => print_expr a (indent + 1) true o) args
                (print (spacing indent newline ++ op) nl out)
  end.

(** ** The script *)

(** [sys.argv] is read first, then the header is printed, then the tree is
    generated and printed with the default [indent=0] and [newline=True]. *)
Definition main (fuel : nat) (argv : list string) (g : Random) (out : stdout)
  : stdout * outcome unit :=
  match nth_error argv 1 with
  | None => (out, Raise IndexError)
  | Some word =>
      match int_of_str word with
      | None => (out, Raise ValueError)
      | Some max_rec =>
          let out1 := print "print" nl out in
          match rand_expr fuel max_rec g with
          | Ret e g' => (print_expr e 0 true out1, Ret tt g')
          | Raise x => (out1, Raise x)
          | OutOfFuel => (out1, OutOfFuel)
          end
      end
  end.

End Program.

Arguments Random {_}.
Arguments number {_}.
Arguments expr {_}.

(** ** The generator under the interpreter's recursion limit

    Python allows a bounded number of nested calls and raises
    [RecursionError] at the call that would pass the bound.  The functions
    above leave the stack out; the ones below carry [frames], the number of
    nested calls still allowed at the place of the call.  A function of the
    script takes one frame when it is entered.  The calls that [random] and
    the builtins nest inside themselves are the interpreter's and the
    library's: how deep each goes when it returns is an interface here. *)

Class Interpreter : Type := {
  randint_frames : nat;   (* [random.randint(a, b)] *)
  choice_frames : nat;    (* [random.choice(seq)] *)
  random_frames : nat;    (* [random.random()] *)
  str_frames : nat        (* [str(r)] *)
}.

Section Stack.

Context `{Builtins} `{Interpreter}.

Local Open Scope py_scope.

Definition raise {A : Type} (e : exn) : M A := fun _ => Raise e.

(** A call that nests [need] calls, with [frames] calls still allowed. *)
Definition call {A : Type} (need frames : nat) (m : M A) : M A :=
  if (frames <? need)%nat then raise RecursionError else m.

(** Entering a function of the script: its body runs with one frame less. *)
Definition enter {A : Type} (frames : nat) (body : nat -> M A) : M A :=
  match frames with
  | O => raise RecursionError
  | S inner => body inner
  end.

Definition rand_instr2_framed (frames : nat) (a b : expr) : M expr :=
  enter frames (fun inner =>
    op <- call choice_frames inner (choice ["add"; "sub"; "mult"]) ;;
    ret (PyList op [a; b])).

Definition rand_instr1_framed (frames : nat) (a : expr) : M expr :=
  enter frames (fun inner =>
    op <- call choice_frames inner (choice ["neg"]) ;;
    ret (PyList op [a])).

(** The loop of [rand_no_exp], inside its frame. *)
Fixpoint rand_no_exp_loop (fuel inner : nat) : M float :=
  match fuel with
  | O => out_of_fuel
  | S fuel' =>
      r <- call random_frames inner random ;;
      s <- call str_frames inner (ret (str_float r)) ;;
      if negb (str_in "e" s) then ret r
      else rand_no_exp_loop fuel' inner
  end.

Definition rand_no_exp_framed (fuel frames : nat) : M float :=
  enter frames (fun inner => rand_no_exp_loop fuel inner).

Definition rand_val_framed (fuel frames : nat) : M number :=
  enter frames (fun inner =>
    c <- call randint_frames inner (randint 0 1) ;;
    if negb (c =? 0) then
      z <- call randint_frames inner (randint (-1000) 1000) ;;
      ret (PyInt z)
    else
      r <- rand_no_exp_framed fuel inner ;;
      ret (PyFloat r)).

Fixpoint rand_expr_framed (fuel frames : nat) (max_rec : Z) : M expr :=
  match fuel with
  | O => out_of_fuel
  | S fuel' =>
      enter frames (fun inner =>
        r <- call randint_frames inner (randint 0 max_rec) ;;
        if (r =? 0) || (max_rec <=? 0) then
          v <- rand_val_framed fuel' inner ;;
          ret (Num v)
        else if r <=? 1 then
          a <- rand_expr_framed fuel' inner (max_rec - 1) ;;
          rand_instr1_framed inner a
        else
          a <- rand_expr_framed fuel' inner (max_rec - 1) ;;
          b <- rand_expr_framed fuel' inner (max_rec - 1) ;;
          rand_instr2_framed inner a b)
  end.

(** Frames that are enough below a call of [rand_expr]: for its draw, for
    [rand_val] down to the redraw loop, for [rand_instr1] and [rand_instr2]. *)
Definition need_no_exp : nat := S (Nat.max random_frames str_frames).
Definition need_val : nat := S (Nat.max randint_frames need_no_exp).
Definition need_instr : nat := S choice_frames.
Definition need_below : nat := Nat.max randint_frames (Nat.max need_val need_instr).

(** Frames that are enough for [rand_expr(max_rec)]: one per level of the
    recursion, [max_rec + 1] of them, and the calls below the deepest. *)
Definition stack_need (max_rec : Z) : nat := (S (Z.to_nat max_rec) + need_below)%nat.

(** [unless_overflow m' m]: wherever [m'] does not raise [RecursionError],
    [m] gives the same outcome. *)
Definition unless_overflow {A : Type} (m' m : M A) : Prop :=
  forall g, m' g <> Raise RecursionError -> m g = m' g.

(** The draws met on the way down the first children, [frames + 1] of them,
    are not [0]: the recursion goes on at each of these levels. *)
Definition descends (frames : nat) (max_rec : Z) (g : Random) : Prop :=
  forall k, (k <= frames)%nat ->
    Z.of_N (ints g (calls g + k)) mod (max_rec - Z.of_nat k + 1) <> 0.

End Stack.

(** ** Measures and shapes of expressions *)

Section Shapes.

Context `{Builtins}.

(** Depth of a tree: the number of operator nodes on its longest path. *)
Fixpoint depth (e : expr) : nat :=
  match e with
  | Num _ => O
  | PyList _ args => S (list_max (map depth args))
  end.

(** The numbers at the leaves, left to right. *)
Fixpoint leaf_values (e : expr) : list number :=
  match e with
  | Num v => [v]
  | PyList _ args => flat_map leaf_values args
  end.

Fixpoint count_leaf (e : expr) : nat :=
  match e with
  | Num _ => 1%nat
  | PyList _ args => list_sum (map count_leaf args)
  end.

(** Operator nodes with two operands. *)
Fixpoint count_binary (e : expr) : nat :=
  match e with
  | Num _ => O
  | PyList _ args =>
      ((if Nat.eqb (List.length args) 2 then 1 else 0) + list_sum (map count_binary args))%nat
  end.

(** [node_of n e]: [n] is [e] or occurs below it. *)
Inductive node_of : expr -> expr -> Prop :=
| node_self (e : expr) : node_of e e
| node_arg (n : expr) (op : string) (args : list expr) (a : expr) :
    In a args -> node_of n a -> node_of n (PyList op args).

(** The branches of the printer, in the order it tests them. *)
Inductive kind : Type :=
| KLeaf
| KUnary
| KBinary.

Definition branch (e : expr) : kind :=
  if is_number e then KLeaf
  else if len e =? 2 then KUnary
  else KBinary.

(** What a node is meant to be, from the way the generator builds it. *)
Inductive shape : expr -> kind -> Prop :=
| shape_leaf (v : number) : shape (Leaf v) KLeaf
| shape_unary (c : expr) : shape (Unary "neg" c) KUnary
| shape_binary (op : string) (a b : expr) :
    In op ["add"; "sub"; "mult"] -> shape (Binary op a b) KBinary.

Inductive well_shaped : expr -> Prop :=
| ws_leaf (v : number) : well_shaped (Leaf v)
| ws_unary (c : expr) : well_shaped c -> well_shaped (Unary "neg" c)
| ws_binary (op : string) (a b : expr) :
    In op ["add"; "sub"; "mult"] ->
    well_shaped a -> well_shaped b -> well_shaped (Binary op a b).

(** The leaf value policy's bounds. *)
Definition leaf_ok (v : number) : Prop :=
  match v with
  | PyInt z => -1000 <= z <= 1000
  | PyFloat r => str_in "e" (str_float r) = false
  end.

(** ** The generator as the specification words it *)

(** Redraw a real until its rendering has no exponent. *)
Inductive redraw : Random -> float -> Random -> Prop :=
| redraw_keep (g : Random) (r : float) (g1 : Random) :
    random g = Ret r g1 ->
    str_in "e" (str_float r) = false ->
    redraw g r g1
| redraw_again (g : Random) (r : float) (g1 : Random) (r' : float) (g' : Random) :
    random g = Ret r g1 ->
    str_in "e" (str_float r) = true ->
    redraw g1 r' g' ->
    redraw g r' g'.

(** One even draw among two decides between an integer of [-1000..1000] and
    a redrawn real. *)
Inductive leaf_value : Random -> number -> Random -> Prop :=
| leaf_value_int (g : Random) (c : Z) (g1 : Random) (z : Z) (g2 : Random) :
    randint 0 1 g = Ret c g1 -> c = 1 ->
    randint (-1000) 1000 g1 = Ret z g2 ->
    leaf_value g (PyInt z) g2
| leaf_value_real (g : Random) (c : Z) (g1 : Random) (r : float) (g2 : Random) :
    randint 0 1 g = Ret c g1 -> c = 0 ->
    redraw g1 r g2 ->
    leaf_value g (PyFloat r) g2.

Inductive generate_expression : Z -> Random -> expr -> Random -> Prop :=
| generate_leaf (max_depth : Z) (g : Random) (r : Z) (g1 : Random)
                (v : number) (g2 : Random) :
    randint 0 max_depth g = Ret r g1 ->
    r = 0 \/ max_depth <= 0 ->
    leaf_value g1 v g2 ->
    generate_expression max_depth g (Leaf v) g2
| generate_unary (max_depth : Z) (g : Random) (r : Z) (g1 : Random)
                 (child : expr) (g2 : Random) (op : string) (g3 : Random) :
    randint 0 max_depth g = Ret r g1 ->
    r = 1 ->
    generate_expression (max_depth - 1) g1 child g2 ->
    choice ["neg"] g2 = Ret op g3 ->
    generate_expression max_depth g (Unary "neg" child) g3
| generate_binary (max_depth : Z) (g : Random) (r : Z) (g1 : Random)
                  (left : expr) (g2 : Random) (right : expr) (g3 : Random)
                  (op : string) (g4 : Random) :
    randint 0 max_depth g = Ret r g1 ->
    ~ (r = 0 \/ max_depth <= 0) ->
    r <> 1 ->
    generate_expression (max_depth - 1) g1 left g2 ->
    generate_expression (max_depth - 1) g2 right g3 ->
    choice ["add"; "sub"; "mult"] g3 = Ret op g4 ->
    generate_expression max_depth g (Binary op left right) g4.

(** ** Random sources on which the redraw loop ends

    From every place of the tape on, some real renders without an exponent. *)
Definition redraw_ends (g : Random) : Prop :=
  forall n : nat, exists m : nat,
    (n <= m)%nat /\ str_in "e" (str_float (reals g m)) = false.

(** The source [g] with its next integer draw replaced by [a] and the later
    ones by [b]. *)
Definition with_draws (a b : N) (g : Random) : Random :=
  {| ints := fun n => if Nat.eqb n (calls g) then a else b;
     reals := reals g;
     calls := calls g |}.

End Shapes.

(** ** Further measures *)

Section Lines.

Context `{Builtins}.




(** The source [g] with [n] draws served. *)
Definition at_draw (g : Random) (n : nat) : Random :=
  {| ints := ints g; reals := reals g; calls := n |}.

End Lines.

(** ** Sample builtins and random sources

    Three floats that [random.random()] can return, with Python's rendering of
    each, and [int] on the words made of decimal digits after an optional
    minus sign (Python's [int] reads more: a plus sign, blanks around the
    number, underscores between digits). *)

Module Sample.

Inductive sample_float : Type :=
| half      (* 0.5 *)
| quarter   (* 0.25 *)
| tiny.     (* 2 ** -20 *)

Definition sample_str (r : sample_float) : string :=
  match r with
  | half => "0.5"
  | quarter => "0.25"
  | tiny => "9.5367431640625e-07"
  end.

Definition sample_int (s : string) : option Z :=
  option_map Z.of_int (NilZero.int_of_string s).

#[export] Instance sample_builtins : Builtins :=
  {| float := sample_float; str_float := sample_str; int_of_str := sample_int |}.

(** A stack on which [randint] nests three calls ([randint], [randrange],
    [_randbelow]), [choice] two, [random] and [str] one. *)
#[export] Instance sample_interpreter : Interpreter :=
  {| randint_frames := 3; choice_frames := 2; random_frames := 1; str_frames := 1 |}.

(** Every integer draw is [2] and every real is [0.5]. *)
Definition twos : Random :=
  {| ints := fun _ => 2%N; reals := fun _ => half; calls := O |}.

(** The [n]-th draw is [n + 2] as an integer and alternates between
    [2 ** -20] and [0.5] as a real. *)
Definition mixed : Random :=
  {| ints := fun n => N.of_nat (n + 2);
     reals := fun n => if Nat.even n then tiny else half;
     calls := O |}.

(** The first draw is [1], every later integer draw is [z + 1000]. *)
Definition pick (z : Z) : Random :=
  {| ints := fun n => match n with O => 1%N | S _ => Z.to_N (z + 1000) end;
     reals := fun _ => half;
     calls := O |}.

End Sample.

(** * Properties *)

Section Properties.

Context `{Builtins}.

Local Open Scope py_scope.

(** ** The monad *)

Lemma bind_ret_inv {A B : Type} (m : M A) (k : A -> M B) (g g' : Random) (b : B) :
  bind m k g = Ret b g' ->
  exists a g1, m g = Ret a g1 /\ k a g1 = Ret b g'.
Proof.
  unfold bind. destruct (m g) as [a g1 | x | ]; try discriminate.
  intros Hk. exists a, g1. split; [reflexivity | exact Hk].
Qed.

Lemma bind_ret_eq {A B : Type} (m : M A) (k : A -> M B) (g g1 : Random) (a : A) :
  m g = Ret a g1 -> bind m k g = k a g1.
Proof. unfold bind. intros ->. reflexivity. Qed.

Lemma ret_inv {A : Type} (a b : A) (g g' : Random) :
  ret a g = Ret b g' -> a = b /\ g = g'.
Proof. unfold ret. intros E. inversion E. split; reflexivity. Qed.

Lemma below_refl {A : Type} (m : M A) : below m m.
Proof. intros g _. reflexivity. Qed.

Lemma below_out_of_fuel {A : Type} (m : M A) : below out_of_fuel m.
Proof. intros g Hg. exfalso. apply Hg. reflexivity. Qed.

Lemma below_bind {A B : Type} (m m' : M A) (k k' : A -> M B) :
  below m m' -> (forall a, below (k a) (k' a)) ->
  below (bind m k) (bind m' k').
Proof.
  intros Hm Hk g. unfold bind. intros Hg.
  destruct (m g) as [a g1 | x | ] eqn:E.
  - rewrite (Hm g) by (rewrite E; discriminate). rewrite E. apply Hk. exact Hg.
  - rewrite (Hm g) by (rewrite E; discriminate). rewrite E. reflexivity.
  - exfalso. apply Hg. reflexivity.
Qed.

(** ** The library [random] *)

Lemma randint_ok (a b : Z) (g : Random) :
  a <= b ->
  randint a b g = Ret (a + Z.of_N (ints g (calls g)) mod (b - a + 1)) (advance g).
Proof.
  intros Hab. unfold randint.
  destruct (b <? a) eqn:E; [apply Z.ltb_lt in E; lia | reflexivity].
Qed.

Lemma randint_empty (a b : Z) (g : Random) :
  b < a -> randint a b g = Raise ValueError.
Proof.
  intros Hab. unfold randint.
  destruct (b <? a) eqn:E; [reflexivity | apply Z.ltb_ge in E; lia].
Qed.

Lemma randint_range (a b r : Z) (g g1 : Random) :
  randint a b g = Ret r g1 -> a <= r <= b /\ g1 = advance g.
Proof.
  unfold randint. destruct (b <? a) eqn:E; [discriminate | ].
  apply Z.ltb_ge in E. intros Hr. inversion Hr; subst. split; [ | reflexivity].
  pose proof (Z.mod_pos_bound (Z.of_N (ints g (calls g))) (b - a + 1)). lia.
Qed.

Lemma randint_total (a b : Z) (g : Random) :
  a <= b -> exists r, randint a b g = Ret r (advance g) /\ a <= r <= b.
Proof.
  intros Hab. eexists. split; [apply randint_ok; exact Hab | ].
  pose proof (Z.mod_pos_bound (Z.of_N (ints g (calls g))) (b - a + 1)). lia.
Qed.

Lemma choice_total {A : Type} (y : A) (seq : list A) (g : Random) :
  exists x, choice (y :: seq) g = Ret x (advance g) /\ In x (y :: seq).
Proof.
  eexists. split; [reflexivity | ].
  apply nth_In.
  pose proof (N.mod_lt (ints g (calls g)) (N.of_nat (List.length (y :: seq)))) as Hlt.
  simpl List.length in *. lia.
Qed.

Lemma choice_in {A : Type} (seq : list A) (x : A) (g g1 : Random) :
  choice seq g = Ret x g1 -> In x seq /\ g1 = advance g.
Proof.
  destruct seq as [ | y seq']; [discriminate | ].
  destruct (choice_total y seq' g) as (x' & Hx' & Hin).
  rewrite Hx'. intros E. injection E as -> ->. split; [exact Hin | reflexivity].
Qed.

(** Every value of the range of a draw comes out on some tape. *)

Lemma with_draws_first (a b : N) (g : Random) :
  ints (with_draws a b g) (calls (with_draws a b g)) = a.
Proof. unfold with_draws. cbn [ints calls]. rewrite Nat.eqb_refl. reflexivity. Qed.

Lemma with_draws_second (a b : N) (g : Random) :
  ints (advance (with_draws a b g)) (calls (advance (with_draws a b g))) = b.
Proof.
  unfold with_draws, advance. cbn [ints calls].
  destruct (Nat.eqb_spec (S (calls g)) (calls g)) as [E | _]; [lia | reflexivity].
Qed.

Lemma randint_reaches (a b r : Z) (g : Random) :
  a <= r <= b ->
  randint a b (with_draws (Z.to_N (r - a)) 0 g)
  = Ret r (advance (with_draws (Z.to_N (r - a)) 0 g)).
Proof.
  intros Hr. rewrite randint_ok by lia. rewrite with_draws_first.
  f_equal. rewrite Z2N.id by lia. rewrite Z.mod_small by lia. lia.
Qed.

Lemma choice_reaches {A : Type} (seq : list A) (x : A) (g : Random) :
  In x seq ->
  exists i, choice seq (with_draws i 0 g) = Ret x (advance (with_draws i 0 g)).
Proof.
  intros Hin. destruct seq as [ | y seq']; [destruct Hin | ].
  destruct (In_nth _ _ y Hin) as (i & Hlt & Hnth).
  exists (N.of_nat i). unfold choice. rewrite with_draws_first.
  rewrite N.mod_small by lia. rewrite Nat2N.id, Hnth. reflexivity.
Qed.

(** ** More fuel never changes a result *)

Lemma rand_no_exp_below (fuel fuel' : nat) :
  (fuel <= fuel')%nat -> below (rand_no_exp fuel) (rand_no_exp fuel').
Proof.
  revert fuel'. induction fuel as [ | fuel IH]; intros fuel' Hle.
  - apply below_out_of_fuel.
  - destruct fuel' as [ | fuel']; [lia | ]. simpl.
    apply below_bind; [apply below_refl | ].
    intros r. destruct (negb (str_in "e" (str_float r))); [apply below_refl | ].
    apply IH. lia.
Qed.

Lemma rand_val_below (fuel fuel' : nat) :
  (fuel <= fuel')%nat -> below (rand_val fuel) (rand_val fuel').
Proof.
  intros Hle. unfold rand_val.
  apply below_bind; [apply below_refl | ].
  intros c. destruct (negb (c =? 0)); [apply below_refl | ].
  apply below_bind; [apply rand_no_exp_below; exact Hle | intros r; apply below_refl].
Qed.

Lemma rand_expr_below (fuel fuel' : nat) (max_rec : Z) :
  (fuel <= fuel')%nat -> below (rand_expr fuel max_rec) (rand_expr fuel' max_rec).
Proof.
  revert fuel' max_rec. induction fuel as [ | fuel IH]; intros fuel' max_rec Hle.
  - apply below_out_of_fuel.
  - destruct fuel' as [ | fuel']; [lia | ]. simpl.
    assert (Hle' : (fuel <= fuel')%nat) by lia.
    apply below_bind; [apply below_refl | ].
    intros r. destruct ((r =? 0) || (max_rec <=? 0)).
    + apply below_bind; [apply rand_val_below; exact Hle' | intros v; apply below_refl].
    + destruct (r <=? 1).
      * apply below_bind; [apply IH; exact Hle' | intros a; apply below_refl].
      * apply below_bind; [apply IH; exact Hle' | ].
        intros a. apply below_bind; [apply IH; exact Hle' | intros b; apply below_refl].
Qed.

Lemma rand_no_exp_mono (fuel fuel' : nat) (g g' : Random) (r : float) :
  rand_no_exp fuel g = Ret r g' -> (fuel <= fuel')%nat ->
  rand_no_exp fuel' g = Ret r g'.
Proof.
  intros E Hle. rewrite <- E. apply rand_no_exp_below; [exact Hle | ].
  rewrite E. discriminate.
Qed.

Lemma rand_val_mono (fuel fuel' : nat) (g g' : Random) (v : number) :
  rand_val fuel g = Ret v g' -> (fuel <= fuel')%nat ->
  rand_val fuel' g = Ret v g'.
Proof.
  intros E Hle. rewrite <- E. apply rand_val_below; [exact Hle | ].
  rewrite E. discriminate.
Qed.

Lemma rand_expr_mono (fuel fuel' : nat) (max_rec : Z) (g g' : Random) (e : expr) :
  rand_expr fuel max_rec g = Ret e g' -> (fuel <= fuel')%nat ->
  rand_expr fuel' max_rec g = Ret e g'.
Proof.
  intros E Hle. rewrite <- E. apply rand_expr_below; [exact Hle | ].
  rewrite E. discriminate.
Qed.

(** ** The generator against its specification *)

Lemma rand_no_exp_sound (fuel : nat) (g g' : Random) (r : float) :
  rand_no_exp fuel g = Ret r g' -> redraw g r g'.
Proof.
  revert g. induction fuel as [ | fuel IH]; intros g E; [discriminate | ].
  simpl in E. apply bind_ret_inv in E as (r0 & g1 & Hr0 & Hk).
  destruct (str_in "e" (str_float r0)) eqn:He; simpl in Hk.
  - eapply redraw_again; [exact Hr0 | exact He | apply IH; exact Hk].
  - apply ret_inv in Hk as [-> ->]. apply redraw_keep; assumption.
Qed.

Lemma rand_no_exp_complete (g g' : Random) (r : float) :
  redraw g r g' -> exists fuel, rand_no_exp fuel g = Ret r g'.
Proof.
  induction 1 as [g r g1 Hr He | g r g1 r' g' Hr He _ [fuel IH]].
  - exists 1%nat. simpl. rewrite (bind_ret_eq _ _ _ _ _ Hr), He. reflexivity.
  - exists (S fuel). simpl. rewrite (bind_ret_eq _ _ _ _ _ Hr), He. exact IH.
Qed.

Lemma redraw_accepts (g g' : Random) (r : float) :
  redraw g r g' -> str_in "e" (str_float r) = false.
Proof. induction 1; assumption. Qed.

Lemma rand_val_sound (fuel : nat) (g g' : Random) (v : number) :
  rand_val fuel g = Ret v g' -> leaf_value g v g'.
Proof.
  unfold rand_val. intros E.
  apply bind_ret_inv in E as (c & g1 & Hc & Hk).
  pose proof (randint_range _ _ _ _ _ Hc) as [Hrange _].
  destruct (c =? 0) eqn:Ec; simpl in Hk.
  - apply Z.eqb_eq in Ec.
    apply bind_ret_inv in Hk as (r & g2 & Hr & Hret).
    apply ret_inv in Hret as [<- <-].
    eapply leaf_value_real; [exact Hc | exact Ec | ].
    eapply rand_no_exp_sound; exact Hr.
  - apply Z.eqb_neq in Ec.
    apply bind_ret_inv in Hk as (z & g2 & Hz & Hret).
    apply ret_inv in Hret as [<- <-].
    eapply leaf_value_int; [exact Hc | lia | exact Hz].
Qed.

Lemma rand_val_complete (g g' : Random) (v : number) :
  leaf_value g v g' -> exists fuel, rand_val fuel g = Ret v g'.
Proof.
  intros [g0 c g1 z g2 Hc -> Hz | g0 c g1 r g2 Hc -> Hr].
  - exists O. unfold rand_val.
    rewrite (bind_ret_eq _ _ _ _ _ Hc). simpl.
    rewrite (bind_ret_eq _ _ _ _ _ Hz). reflexivity.
  - apply rand_no_exp_complete in Hr as [fuel Hr].
    exists fuel. unfold rand_val.
    rewrite (bind_ret_eq _ _ _ _ _ Hc). simpl.
    rewrite (bind_ret_eq _ _ _ _ _ Hr). reflexivity.
Qed.

Lemma rand_instr1_inv (a e : expr) (g g' : Random) :
  rand_instr1 a g = Ret e g' ->
  e = Unary "neg" a /\ exists op, choice ["neg"] g = Ret op g'.
Proof.
  unfold rand_instr1. intros E.
  apply bind_ret_inv in E as (op & g1 & Hop & Hret).
  apply ret_inv in Hret as [<- <-].
  destruct (choice_in _ _ _ _ Hop) as [[<- | []] _].
  split; [reflexivity | exists "neg"; exact Hop].
Qed.

Lemma rand_instr2_inv (a b e : expr) (g g' : Random) :
  rand_instr2 a b g = Ret e g' ->
  exists op, choice ["add"; "sub"; "mult"] g = Ret op g' /\
             In op ["add"; "sub"; "mult"] /\ e = Binary op a b.
Proof.
  unfold rand_instr2. intros E.
  apply bind_ret_inv in E as (op & g1 & Hop & Hret).
  apply ret_inv in Hret as [<- <-].
  exists op. split; [exact Hop | ]. split; [ | reflexivity].
  apply (choice_in _ _ _ _ Hop).
Qed.

Lemma rand_expr_sound (fuel : nat) (max_rec : Z) (g g' : Random) (e : expr) :
  rand_expr fuel max_rec g = Ret e g' -> generate_expression max_rec g e g'.
Proof.
  revert max_rec g g' e.
  induction fuel as [ | fuel IH]; intros max_rec g g' e E; [discriminate | ].
  simpl in E. apply bind_ret_inv in E as (r & g1 & Hr & Hk).
  pose proof (randint_range _ _ _ _ _ Hr) as [Hrange _].
  destruct ((r =? 0) || (max_rec <=? 0)) eqn:Etest.
  - apply bind_ret_inv in Hk as (v & g2 & Hv & Hret).
    apply ret_inv in Hret as [<- <-].
    eapply generate_leaf; [exact Hr | | eapply rand_val_sound; exact Hv].
    apply orb_true_iff in Etest as [E0 | E0];
      [left; apply Z.eqb_eq in E0 | right; apply Z.leb_le in E0]; exact E0.
  - apply orb_false_iff in Etest as [E0 E1].
    apply Z.eqb_neq in E0. apply Z.leb_gt in E1.
    destruct (r <=? 1) eqn:Er.
    + apply Z.leb_le in Er.
      apply bind_ret_inv in Hk as (a & g2 & Ha & Hi).
      apply rand_instr1_inv in Hi as [-> [op Hop]].
      eapply generate_unary; [exact Hr | lia | apply IH; exact Ha | exact Hop].
    + apply Z.leb_gt in Er.
      apply bind_ret_inv in Hk as (a & g2 & Ha & Hk).
      apply bind_ret_inv in Hk as (b & g3 & Hb & Hi).
      apply rand_instr2_inv in Hi as (op & Hop & _ & ->).
      eapply generate_binary;
        [exact Hr | lia | lia | apply IH; exact Ha | apply IH; exact Hb | exact Hop].
Qed.

Lemma rand_expr_complete (max_depth : Z) (g g' : Random) (e : expr) :
  generate_expression max_depth g e g' ->
  exists fuel, rand_expr fuel max_depth g = Ret e g'.
Proof.
  induction 1 as
    [d g r g1 v g2 Hr Htest Hv
    | d g r g1 c g2 op g3 Hr -> _ [fuel IH] Hop
    | d g r g1 a g2 b g3 op g4 Hr Htest Hr1 _ [fa IHa] _ [fb IHb] Hop].
  - apply rand_val_complete in Hv as [fuel Hv].
    exists (S fuel). simpl. rewrite (bind_ret_eq _ _ _ _ _ Hr).
    replace ((r =? 0) || (d <=? 0)) with true.
    + rewrite (bind_ret_eq _ _ _ _ _ Hv). reflexivity.
    + symmetry. apply orb_true_iff.
      destruct Htest as [E0 | E0];
        [left; apply Z.eqb_eq | right; apply Z.leb_le]; exact E0.
  - pose proof (randint_range _ _ _ _ _ Hr) as [Hrange _].
    exists (S fuel). simpl. rewrite (bind_ret_eq _ _ _ _ _ Hr).
    replace (d <=? 0) with false by (symmetry; apply Z.leb_gt; lia).
    simpl. rewrite (bind_ret_eq _ _ _ _ _ IH).
    unfold rand_instr1. rewrite (bind_ret_eq _ _ _ _ _ Hop).
    destruct (choice_in _ _ _ _ Hop) as [[<- | []] _]. reflexivity.
  - pose proof (randint_range _ _ _ _ _ Hr) as [Hrange _].
    exists (S (Nat.max fa fb)). simpl. rewrite (bind_ret_eq _ _ _ _ _ Hr).
    replace (r =? 0) with false by (symmetry; apply Z.eqb_neq; lia).
    replace (d <=? 0) with false by (symmetry; apply Z.leb_gt; lia).
    replace (r <=? 1) with false by (symmetry; apply Z.leb_gt; lia).
    simpl.
    rewrite (bind_ret_eq _ _ _ _ _
               (rand_expr_mono _ (Nat.max fa fb) _ _ _ _ IHa (Nat.le_max_l fa fb))).
    rewrite (bind_ret_eq _ _ _ _ _
               (rand_expr_mono _ (Nat.max fa fb) _ _ _ _ IHb (Nat.le_max_r fa fb))).
    unfold rand_instr2. rewrite (bind_ret_eq _ _ _ _ _ Hop). reflexivity.
Qed.

Lemma generate_expression_by_draw (max_depth : Z) (g g1 g' : Random) (r : Z) (e : expr) :
  randint 0 max_depth g = Ret r g1 ->
  generate_expression max_depth g e g' ->
  ((exists v, e = Leaf v) <-> (r = 0 \/ max_depth <= 0)) /\
  ((exists child, e = Unary "neg" child) <-> r = 1) /\
  ((exists op left right,
      e = Binary op left right /\ In op ["add"; "sub"; "mult"]) <->
   (~ (r = 0 \/ max_depth <= 0) /\ r <> 1)).
Proof.
  intros Hr Hgen. pose proof (randint_range _ _ _ _ _ Hr) as [Hrange _].
  unfold Leaf, Unary, Binary.
  destruct Hgen as
    [d g r' g1' v g2 Hr' Htest Hv
    | d g r' g1' c g2 op g3 Hr' Hone Hc Hop
    | d g r' g1' a g2 b g3 op g4 Hr' Htest Hr1 Ha Hb Hop];
    rewrite Hr in Hr'; injection Hr' as <- <-; unfold Leaf, Unary, Binary.
  - split; [ | split]; split.
    + intros _. exact Htest.
    + intros _. exists v. reflexivity.
    + intros (c & Hc). discriminate.
    + intros ->. exfalso. destruct Htest; lia.
    + intros (op & a & b & Hab & _). discriminate.
    + intros [Hn _]. exfalso. apply Hn. exact Htest.
  - split; [ | split]; split.
    + intros (v & Hv). discriminate.
    + intros [E | E]; exfalso; lia.
    + intros _. exact Hone.
    + intros _. exists c. reflexivity.
    + intros (op' & a & b & Hab & _). discriminate.
    + intros [_ Hn]. exfalso. apply Hn. exact Hone.
  - destruct (choice_in _ _ _ _ Hop) as [Hin _].
    split; [ | split]; split.
    + intros (v & Hv). discriminate.
    + intros E. exfalso. apply Htest. exact E.
    + intros (c & Hc). discriminate.
    + intros E. exfalso. apply Hr1. exact E.
    + intros _. split; assumption.
    + intros _. exists op, a, b. split; [reflexivity | exact Hin].
Qed.

(** C1.  On a non-negative bound the generator's first draw [r] is an integer
    of [0..max_depth], and the calls that return are exactly the ones the
    specification describes: a Leaf exactly when [r = 0] or [max_depth <= 0],
    a Unary ["neg"] node over a tree generated with [max_depth - 1] exactly
    when [r = 1], and otherwise a Binary node whose operator is chosen among
    ["add"], ["sub"], ["mult"] and whose two children are generated one after
    the other with [max_depth - 1].  Every integer of [0..max_depth] can be
    the draw and each of the three operators can be the choice. *)
Theorem rand_expr_refines_generate_expression (max_depth : Z) (g : Random) :
  0 <= max_depth ->
  exists r,
    randint 0 max_depth g = Ret r (advance g) /\ 0 <= r <= max_depth /\
    (forall e g',
       ((exists fuel, rand_expr fuel max_depth g = Ret e g') <->
        generate_expression max_depth g e g') /\
       ((exists fuel, rand_expr fuel max_depth g = Ret e g') ->
        ((exists v, e = Leaf v) <-> (r = 0 \/ max_depth <= 0)) /\
        ((exists child, e = Unary "neg" child) <-> r = 1) /\
        ((exists op left right,
            e = Binary op left right /\ In op ["add"; "sub"; "mult"]) <->
         (~ (r = 0 \/ max_depth <= 0) /\ r <> 1)))) /\
    (forall r0, 0 <= r0 <= max_depth ->
       exists g0, reals g0 = reals g /\ calls g0 = calls g /\
                  randint 0 max_depth g0 = Ret r0 (advance g0)) /\
    (forall op, In op ["add"; "sub"; "mult"] ->
       exists g0, reals g0 = reals g /\ calls g0 = calls g /\
                  choice ["add"; "sub"; "mult"] g0 = Ret op (advance g0)).
Proof.
  intros Hd. destruct (randint_total 0 max_depth g Hd) as (r & Hr & Hrange).
  exists r. split; [exact Hr | ]. split; [exact Hrange | ].
  split; [ | split].
  - intros e g'. split.
    + split.
      * intros [fuel E]. eapply rand_expr_sound; exact E.
      * apply rand_expr_complete.
    + intros [fuel E]. eapply generate_expression_by_draw; [exact Hr | ].
      eapply rand_expr_sound; exact E.
  - intros r0 Hr0. exists (with_draws (Z.to_N (r0 - 0)) 0 g).
    split; [reflexivity | ]. split; [reflexivity | ].
    apply randint_reaches. exact Hr0.
  - intros op Hop. destruct (choice_reaches _ _ g Hop) as [i Hi].
    exists (with_draws i 0 g). split; [reflexivity | ]. split; [reflexivity | exact Hi].
Qed.

(** ** Leaf values *)

Lemma leaf_value_ok (g g' : Random) (v : number) :
  leaf_value g v g' -> leaf_ok v.
Proof.
  intros [g0 c g1 z g2 Hc Hone Hz | g0 c g1 r g2 Hc Hzero Hr]; simpl.
  - apply (randint_range _ _ _ _ _ Hz).
  - eapply redraw_accepts; exact Hr.
Qed.

Lemma generate_expression_leaves (max_depth : Z) (g g' : Random) (e : expr) :
  generate_expression max_depth g e g' -> Forall leaf_ok (leaf_values e).
Proof.
  induction 1 as
    [d g r g1 v g2 Hr Htest Hv
    | d g r g1 c g2 op g3 Hr Hone _ IH Hop
    | d g r g1 a g2 b g3 op g4 Hr Htest Hr1 _ IHa _ IHb Hop]; simpl.
  - constructor; [eapply leaf_value_ok; exact Hv | constructor].
  - rewrite app_nil_r. exact IH.
  - rewrite app_nil_r. apply Forall_app. split; assumption.
Qed.

Lemma rand_val_reaches (z : Z) (g : Random) :
  -1000 <= z <= 1000 ->
  rand_val 0 (with_draws 1 (Z.to_N (z + 1000)) g)
  = Ret (PyInt z) (advance (advance (with_draws 1 (Z.to_N (z + 1000)) g))).
Proof.
  intros Hz. set (g1 := with_draws 1 (Z.to_N (z + 1000)) g).
  assert (Hc : randint 0 1 g1 = Ret 1 (advance g1)).
  { rewrite randint_ok by lia. unfold g1. rewrite with_draws_first. reflexivity. }
  assert (Hd : randint (-1000) 1000 (advance g1) = Ret z (advance (advance g1))).
  { rewrite randint_ok by lia. unfold g1. rewrite with_draws_second.
    f_equal. rewrite Z2N.id by lia.
    replace (1000 - -1000 + 1) with 2001 by lia.
    rewrite Z.mod_small by lia. lia. }
  unfold rand_val. rewrite (bind_ret_eq _ _ _ _ _ Hc).
  change (negb (1 =? 0)) with true. cbv iota.
  rewrite (bind_ret_eq _ _ _ _ _ Hd). reflexivity.
Qed.

(** C3.  The leaf value policy: one draw among [0] and [1] decides; on [1]
    the value is an integer drawn from [-1000..1000] (both ends and every
    integer between them can come out), on [0] it is a real redrawn until its
    rendering has no ["e"].  Hence every integer leaf of a generated tree lies
    in [-1000..1000] and the rendering of every other leaf has no ["e"]. *)
Theorem rand_val_policy :
  (forall g : Random,
     exists c, randint 0 1 g = Ret c (advance g) /\ (c = 0 \/ c = 1)) /\
  (forall (g g' : Random) (v : number),
     (exists fuel, rand_val fuel g = Ret v g') <-> leaf_value g v g') /\
  (forall (g : Random) (z : Z),
     -1000 <= z <= 1000 ->
     exists g1 g2,
       reals g1 = reals g /\ calls g1 = calls g /\
       rand_val 0 g1 = Ret (PyInt z) g2) /\
  (forall (fuel : nat) (g g' : Random) (v : number),
     rand_val fuel g = Ret v g' -> leaf_ok v) /\
  (forall (fuel : nat) (max_rec : Z) (g g' : Random) (e : expr),
     rand_expr fuel max_rec g = Ret e g' -> Forall leaf_ok (leaf_values e)).
Proof.
  split; [ | split; [ | split; [ | split]]].
  - intros g. destruct (randint_total 0 1 g) as (c & Hc & Hrange); [lia | ].
    exists c. split; [exact Hc | lia].
  - intros g g' v. split.
    + intros [fuel E]. eapply rand_val_sound; exact E.
    + apply rand_val_complete.
  - intros g z Hz. eexists. eexists.
    split; [ | split; [ | apply rand_val_reaches; exact Hz]]; reflexivity.
  - intros fuel g g' v E. eapply leaf_value_ok. eapply rand_val_sound; exact E.
  - intros fuel max_rec g g' e E.
    eapply generate_expression_leaves. eapply rand_expr_sound; exact E.
Qed.

(** ** Depth, errors and termination *)

Lemma generate_expression_depth (max_depth : Z) (g g' : Random) (e : expr) :
  generate_expression max_depth g e g' -> Z.of_nat (depth e) <= max_depth.
Proof.
  induction 1 as
    [d g r g1 v g2 Hr Htest Hv
    | d g r g1 c g2 op g3 Hr Hone _ IH Hop
    | d g r g1 a g2 b g3 op g4 Hr Htest Hr1 _ IHa _ IHb Hop];
    pose proof (randint_range _ _ _ _ _ Hr) as [Hrange _]; simpl depth.
  - lia.
  - simpl list_max. lia.
  - simpl list_max. lia.
Qed.

Lemma redraw_reals (g g' : Random) (r : float) :
  redraw g r g' -> reals g' = reals g.
Proof.
  induction 1 as [g r g1 Hr He | g r g1 r' g' Hr He _ IH].
  - injection Hr as _ <-. reflexivity.
  - injection Hr as _ <-. exact IH.
Qed.

Lemma leaf_value_reals (g g' : Random) (v : number) :
  leaf_value g v g' -> reals g' = reals g.
Proof.
  intros [g0 c g1 z g2 Hc _ Hz | g0 c g1 r g2 Hc _ Hr].
  - destruct (randint_range _ _ _ _ _ Hc) as [_ ->].
    destruct (randint_range _ _ _ _ _ Hz) as [_ ->]. reflexivity.
  - destruct (randint_range _ _ _ _ _ Hc) as [_ ->].
    rewrite (redraw_reals _ _ _ Hr). reflexivity.
Qed.

Lemma generate_expression_reals (max_depth : Z) (g g' : Random) (e : expr) :
  generate_expression max_depth g e g' -> reals g' = reals g.
Proof.
  induction 1 as
    [d g r g1 v g2 Hr Htest Hv
    | d g r g1 c g2 op g3 Hr Hone _ IH Hop
    | d g r g1 a g2 b g3 op g4 Hr Htest Hr1 _ IHa _ IHb Hop];
    destruct (randint_range _ _ _ _ _ Hr) as [_ ->].
  - rewrite (leaf_value_reals _ _ _ Hv). reflexivity.
  - destruct (choice_in _ _ _ _ Hop) as [_ ->]. simpl. rewrite IH. reflexivity.
  - destruct (choice_in _ _ _ _ Hop) as [_ ->]. simpl. rewrite IHb, IHa. reflexivity.
Qed.

Lemma redraw_ends_same_reals (g g' : Random) :
  reals g' = reals g -> redraw_ends g -> redraw_ends g'.
Proof. unfold redraw_ends. intros ->. trivial. Qed.

Lemma redraw_after (k : nat) (g : Random) :
  str_in "e" (str_float (reals g (calls g + k))) = false ->
  exists r g', redraw g r g'.
Proof.
  revert g. induction k as [ | k IH]; intros g Hk.
  - rewrite Nat.add_0_r in Hk.
    exists (reals g (calls g)), (advance g).
    apply redraw_keep; [reflexivity | exact Hk].
  - destruct (str_in "e" (str_float (reals g (calls g)))) eqn:He.
    + destruct (IH (advance g)) as (r & g' & Hr).
      * simpl. rewrite <- Nat.add_succ_r. exact Hk.
      * exists r, g'.
        eapply redraw_again; [reflexivity | exact He | exact Hr].
    + exists (reals g (calls g)), (advance g).
      apply redraw_keep; [reflexivity | exact He].
Qed.

Lemma redraw_total (g : Random) :
  redraw_ends g -> exists r g', redraw g r g'.
Proof.
  intros Hends. destruct (Hends (calls g)) as (m & Hle & Hm).
  apply (redraw_after (m - calls g)).
  replace (calls g + (m - calls g))%nat with m by lia. exact Hm.
Qed.

Lemma leaf_value_total (g : Random) :
  redraw_ends g -> exists v g', leaf_value g v g'.
Proof.
  intros Hends.
  destruct (randint_total 0 1 g) as (c & Hc & Hrange); [lia | ].
  assert (Hcases : c = 1 \/ c = 0) by lia. destruct Hcases as [Hone | Hzero].
  - destruct (randint_total (-1000) 1000 (advance g)) as (z & Hz & _); [lia | ].
    exists (PyInt z), (advance (advance g)).
    eapply leaf_value_int; [exact Hc | exact Hone | exact Hz].
  - destruct (redraw_total (advance g)) as (r & g' & Hr).
    + eapply redraw_ends_same_reals; [ | exact Hends]. reflexivity.
    + exists (PyFloat r), g'.
      eapply leaf_value_real; [exact Hc | exact Hzero | exact Hr].
Qed.

Lemma generate_expression_total (n : nat) (g : Random) :
  redraw_ends g -> exists e g', generate_expression (Z.of_nat n) g e g'.
Proof.
  revert g. induction n as [ | n IH]; intros g Hends;
    assert (Hends1 : redraw_ends (advance g))
      by (eapply redraw_ends_same_reals; [ | exact Hends]; reflexivity).
  - destruct (randint_total 0 (Z.of_nat 0) g) as (r & Hr & Hrange); [lia | ].
    destruct (leaf_value_total _ Hends1) as (v & g' & Hv).
    exists (Leaf v), g'. eapply generate_leaf; [exact Hr | right; simpl; lia | exact Hv].
  - destruct (randint_total 0 (Z.of_nat (S n)) g) as (r & Hr & Hrange); [lia | ].
    replace (Z.of_nat n) with (Z.of_nat (S n) - 1) in IH by lia.
    destruct (Z.eq_dec r 0) as [Hzero | Hnz].
    + destruct (leaf_value_total _ Hends1) as (v & g' & Hv).
      exists (Leaf v), g'. eapply generate_leaf; [exact Hr | left; exact Hzero | exact Hv].
    + destruct (IH _ Hends1) as (a & g2 & Ha).
      assert (Hends2 : redraw_ends g2).
      { eapply redraw_ends_same_reals; [ | exact Hends1].
        eapply generate_expression_reals; exact Ha. }
      destruct (Z.eq_dec r 1) as [Hone | Hmore].
      * destruct (choice_total "neg" [] g2) as (op & Hop & _).
        exists (Unary "neg" a), (advance g2).
        eapply generate_unary; [exact Hr | exact Hone | exact Ha | exact Hop].
      * destruct (IH _ Hends2) as (b & g3 & Hb).
        destruct (choice_total "add" ["sub"; "mult"] g3) as (op & Hop & _).
        exists (Binary op a b), (advance g3).
        eapply generate_binary;
          [exact Hr | lia | exact Hmore | exact Ha | exact Hb | exact Hop].
Qed.

Lemma rand_no_exp_no_raise (fuel : nat) (g : Random) (x : exn) :
  rand_no_exp fuel g <> Raise x.
Proof.
  revert g. induction fuel as [ | fuel IH]; intros g; [discriminate | ].
  simpl. unfold bind, random.
  destruct (negb (str_in "e" (str_float (reals g (calls g))))); [discriminate | apply IH].
Qed.

Lemma rand_val_no_raise (fuel : nat) (g : Random) (x : exn) :
  rand_val fuel g <> Raise x.
Proof.
  unfold rand_val. rewrite (bind_ret_eq _ _ _ _ _ (randint_ok 0 1 g ltac:(lia))).
  destruct (negb (_ =? 0)).
  - rewrite (bind_ret_eq _ _ _ _ _ (randint_ok (-1000) 1000 _ ltac:(lia))).
    discriminate.
  - unfold bind.
    destruct (rand_no_exp fuel (advance g)) as [r g1 | y | ] eqn:E; try discriminate.
    exfalso. exact (rand_no_exp_no_raise _ _ _ E).
Qed.

Lemma rand_expr_no_raise (fuel : nat) (max_rec : Z) (g : Random) (x : exn) :
  0 <= max_rec -> rand_expr fuel max_rec g <> Raise x.
Proof.
  revert max_rec g x.
  induction fuel as [ | fuel IH]; intros max_rec g x Hd; [discriminate | ].
  simpl. destruct (randint_total 0 max_rec g Hd) as (r & Hr & Hrange).
  rewrite (bind_ret_eq _ _ _ _ _ Hr).
  destruct ((r =? 0) || (max_rec <=? 0)) eqn:Etest.
  - unfold bind.
    destruct (rand_val fuel (advance g)) as [v g1 | y | ] eqn:E; try discriminate.
    exfalso. exact (rand_val_no_raise _ _ _ E).
  - apply orb_false_iff in Etest as [_ E1]. apply Z.leb_gt in E1.
    assert (Hd' : 0 <= max_rec - 1) by lia.
    destruct (r <=? 1); unfold bind.
    + destruct (rand_expr fuel (max_rec - 1) (advance g)) as [a g1 | y | ] eqn:E;
        try discriminate.
      exfalso. exact (IH _ _ _ Hd' E).
    + destruct (rand_expr fuel (max_rec - 1) (advance g)) as [a g1 | y | ] eqn:E;
        try discriminate; [ | exfalso; exact (IH _ _ _ Hd' E)].
      destruct (rand_expr fuel (max_rec - 1) g1) as [b g2 | y | ] eqn:E';
        try discriminate.
      exfalso. exact (IH _ _ _ Hd' E').
Qed.

Lemma rand_expr_zero (g g' : Random) (e : expr) :
  (exists fuel, rand_expr fuel 0 g = Ret e g') <->
  (exists v, e = Leaf v /\ leaf_value (advance g) v g').
Proof.
  split.
  - intros [fuel E]. apply rand_expr_sound in E.
    inversion E as
      [d g0 r g1 v g2 Hr Htest Hv
      | d g0 r g1 c g2 op g3 Hr Hone Hc Hop
      | d g0 r g1 a g2 b g3 op g4 Hr Htest Hr1 Ha Hb Hop]; subst;
      destruct (randint_range _ _ _ _ _ Hr) as [Hrange ->]; try lia.
    exists v. split; [reflexivity | exact Hv].
  - intros (v & -> & Hv). apply rand_expr_complete.
    destruct (randint_total 0 0 g) as (r & Hr & Hrange); [lia | ].
    eapply generate_leaf; [exact Hr | right; lia | exact Hv].
Qed.

(** C10.  Below zero the first draw is over the empty range [0..max_rec]: it
    raises [ValueError], so the call raises it too and returns nothing.  The
    draw comes before the test [max_rec <= 0]: when the draw has succeeded and
    the test holds, [max_rec] is [0]. *)
Theorem rand_expr_negative_raises (max_rec : Z) (g : Random) :
  (max_rec < 0 ->
   randint 0 max_rec g = Raise ValueError /\
   (forall fuel, rand_expr (S fuel) max_rec g = Raise ValueError) /\
   (forall fuel e g', rand_expr fuel max_rec g <> Ret e g')) /\
  (forall r g1,
     randint 0 max_rec g = Ret r g1 -> max_rec <= 0 -> max_rec = 0 /\ r = 0).
Proof.
  split.
  - intros Hneg.
    assert (Hdraw : randint 0 max_rec g = Raise ValueError)
      by (apply randint_empty; exact Hneg).
    split; [exact Hdraw | ]. split.
    + intros fuel. simpl. unfold bind. rewrite Hdraw. reflexivity.
    + intros [ | fuel] e g'; [discriminate | ].
      simpl. unfold bind. rewrite Hdraw. discriminate.
  - intros r g1 Hr Hle. destruct (randint_range _ _ _ _ _ Hr) as [Hrange _]. lia.
Qed.

(** ** Texts *)

Lemma str_app_assoc (a b c : string) : ((a ++ b) ++ c = a ++ b ++ c)%string.
Proof. induction a as [ | x a IH]; simpl; [reflexivity | rewrite IH; reflexivity]. Qed.

Lemma str_app_nil_r (a : string) : (a ++ "" = a)%string.
Proof. induction a as [ | x a IH]; simpl; [reflexivity | rewrite IH; reflexivity]. Qed.

Lemma newlines_app (a b : string) :
  newlines (a ++ b) = (newlines a + newlines b)%nat.
Proof. induction a as [ | x a IH]; simpl; [reflexivity | rewrite IH; lia]. Qed.

Lemma newlines_nl : newlines nl = 1%nat.
Proof. reflexivity. Qed.

Lemma newlines_spaces (n : nat) : newlines (str_repeat " " n) = O.
Proof. induction n as [ | n IH]; simpl; [reflexivity | exact IH]. Qed.

Lemma newlines_spacing (indent : Z) (newline : bool) :
  newlines (spacing indent newline) = O.
Proof.
  unfold spacing, str_mul. destruct newline; [apply newlines_spaces | reflexivity].
Qed.

Lemma newlines_uint (d : Decimal.uint) :
  newlines (NilEmpty.string_of_uint d) = O.
Proof. induction d; simpl; try reflexivity; assumption. Qed.

Lemma newlines_str_int (z : Z) : newlines (str_int z) = O.
Proof.
  unfold str_int, NilZero.string_of_int, NilZero.string_of_uint.
  destruct (Z.to_int z) as [d | d]; destruct d; simpl; try reflexivity;
    apply newlines_uint.
Qed.

Lemma newlines_operator (op : string) :
  In op ["neg"; "add"; "sub"; "mult"] -> newlines op = O.
Proof. intros [<- | [<- | [<- | [<- | []]]]]; reflexivity. Qed.

(** ** The printer *)

Lemma expr_nested_ind (P : expr -> Prop) :
  (forall v, P (Num v)) ->
  (forall op args, Forall P args -> P (PyList op args)) ->
  forall e, P e.
Proof.
  intros Hnum Hlist. fix IH 1. intros [v | op args].
  - apply Hnum.
  - apply Hlist. induction args as [ | a args IHargs]; constructor.
    + apply IH.
    + exact IHargs.
Qed.

Lemma print_expr_list (op : string) (args : list expr)
      (indent : Z) (newline : bool) (out : stdout) :
  print_expr (PyList op args) indent newline out =
  if len (PyList op args) =? 2 then
    match args with
    | a :: _ => print_expr a (indent + 1) false
                           (print (spacing indent newline ++ op) "" out)
    | [] => out
    end
  else
    fold_left (fun o a => print_expr a (indent + 1) true o) args
              (print (spacing indent newline ++ op) nl out).
Proof.
  destruct args as [ | a [ | b args]]; try reflexivity.
  unfold len. replace (1 + Z.of_nat (List.length (a :: b :: args)) =? 2) with false;
    [reflexivity | ].
  symmetry. apply Z.eqb_neq. simpl List.length. lia.
Qed.

Lemma fold_print_app (args : list expr) (indent : Z) (out : stdout) :
  Forall (fun a => forall i m o, print_expr a i m o = (o ++ print_expr a i m "")%string)
         args ->
  fold_left (fun o a => print_expr a indent true o) args out =
  (out ++ fold_left (fun o a => print_expr a indent true o) args "")%string.
Proof.
  intros Hall. revert out.
  induction Hall as [ | a args Ha _ IH]; intros out; simpl.
  - rewrite str_app_nil_r. reflexivity.
  - rewrite IH. rewrite (IH (print_expr a indent true "")).
    rewrite (Ha indent true out). rewrite str_app_assoc. reflexivity.
Qed.

(** The printer only appends to what is already written. *)
Lemma print_expr_app (e : expr) (indent : Z) (newline : bool) (out : stdout) :
  print_expr e indent newline out = (out ++ print_expr e indent newline "")%string.
Proof.
  revert indent newline out.
  induction e as [v | op args IH] using expr_nested_ind; intros indent newline out.
  - reflexivity.
  - destruct args as [ | a [ | b args]].
    + reflexivity.
    + inversion IH as [ | a' l' Ha _]; subst. simpl.
      rewrite Ha. rewrite (Ha _ _ (print _ _ _)).
      unfold print. simpl. rewrite !str_app_assoc. reflexivity.
    + change (print_expr (PyList op (a :: b :: args)) indent newline out)
        with (fold_left (fun o x => print_expr x (indent + 1) true o) (a :: b :: args)
                        (print (spacing indent newline ++ op) nl out)).
      change (print_expr (PyList op (a :: b :: args)) indent newline "")
        with (fold_left (fun o x => print_expr x (indent + 1) true o) (a :: b :: args)
                        (print (spacing indent newline ++ op) nl "")).
      rewrite (fold_print_app _ _ _ IH).
      rewrite (fold_print_app _ _ (print _ _ "") IH).
      unfold print. simpl. rewrite !str_app_assoc. reflexivity.
Qed.

Lemma print_expr_unary (op : string) (child : expr)
      (indent : Z) (newline : bool) (out : stdout) :
  print_expr (Unary op child) indent newline out =
  (out ++ spacing indent newline ++ op ++ print_expr child (indent + 1) false "")%string.
Proof.
  unfold Unary. simpl. rewrite print_expr_app. unfold print.
  rewrite str_app_nil_r, !str_app_assoc. reflexivity.
Qed.

Lemma print_expr_binary (op : string) (left right : expr)
      (indent : Z) (newline : bool) (out : stdout) :
  print_expr (Binary op left right) indent newline out =
  (out ++ spacing indent newline ++ op ++ nl
       ++ print_expr left (indent + 1) true ""
       ++ print_expr right (indent + 1) true "")%string.
Proof.
  unfold Binary. simpl.
  rewrite (print_expr_app right). rewrite (print_expr_app left). unfold print.
  rewrite !str_app_assoc. reflexivity.
Qed.

Lemma print_expr_leaf (v : number) (indent : Z) (newline : bool) (out : stdout) :
  print_expr (Leaf v) indent newline out =
  (out ++ spacing indent newline ++ str v ++ nl)%string.
Proof. unfold Leaf. simpl. unfold print. rewrite !str_app_assoc. reflexivity. Qed.

(** C4.  A Leaf is printed as its value after the spacing ([indent] spaces in
    newline mode, one space otherwise) and before a line end.  A Binary node
    is printed as its operator after the same spacing and before a line end,
    then its two children in order, each one level deeper in newline mode.
    The node [["add", 3, 4]] at level [0] comes out as the lines ["add"],
    [" 3"], [" 4"]. *)
Theorem print_expr_leaf_and_binary :
  (forall n : nat, spacing (Z.of_nat n) true = str_repeat " " n) /\
  (forall indent : Z, spacing indent false = " ") /\
  (forall (v : number) (indent : Z) (newline : bool) (out : stdout),
     print_expr (Leaf v) indent newline out =
     (out ++ spacing indent newline ++ str v ++ nl)%string) /\
  (forall (op : string) (left right : expr) (indent : Z) (newline : bool) (out : stdout),
     print_expr (Binary op left right) indent newline out =
     print_expr right (indent + 1) true
       (print_expr left (indent + 1) true
          (out ++ spacing indent newline ++ op ++ nl)%string) /\
     print_expr (Binary op left right) indent newline out =
     (out ++ spacing indent newline ++ op ++ nl
          ++ print_expr left (indent + 1) true ""
          ++ print_expr right (indent + 1) true "")%string) /\
  print_expr (Binary "add" (Leaf (PyInt 3)) (Leaf (PyInt 4))) 0 true "" =
  ("add" ++ nl ++ " 3" ++ nl ++ " 4" ++ nl)%string.
Proof.
  split; [ | split; [ | split; [ | split]]].
  - intros n. unfold spacing, str_mul. rewrite Nat2Z.id. reflexivity.
  - reflexivity.
  - apply print_expr_leaf.
  - intros op left right indent newline out. split.
    + unfold Binary. cbn [print_expr fold_left]. unfold print.
      rewrite !str_app_assoc. reflexivity.
    + apply print_expr_binary.
  - reflexivity.
Qed.

(** C5.  A Unary node is printed as its operator after the spacing, with no
    line end, then its child one level deeper out of newline mode, hence on
    the same line after one space.  ["neg"] over [5] at level [0] comes out
    as the single line ["neg 5"]. *)
Theorem print_expr_unary_same_line :
  (forall (op : string) (child : expr) (indent : Z) (newline : bool) (out : stdout),
     print_expr (Unary op child) indent newline out =
     print_expr child (indent + 1) false (out ++ spacing indent newline ++ op)%string /\
     print_expr (Unary op child) indent newline out =
     (out ++ spacing indent newline ++ op
          ++ print_expr child (indent + 1) false "")%string) /\
  (forall (op : string) (v : number) (indent : Z) (newline : bool) (out : stdout),
     print_expr (Unary op (Leaf v)) indent newline out =
     (out ++ spacing indent newline ++ op ++ " " ++ str v ++ nl)%string) /\
  print_expr (Unary "neg" (Leaf (PyInt 5))) 0 true "" = ("neg 5" ++ nl)%string /\
  newlines (print_expr (Unary "neg" (Leaf (PyInt 5))) 0 true "") = 1%nat.
Proof.
  split; [ | split; [ | split]].
  - intros op child indent newline out. split.
    + unfold Unary. cbn [print_expr]. unfold print.
      rewrite str_app_nil_r. reflexivity.
    + apply print_expr_unary.
  - intros op v indent newline out.
    rewrite print_expr_unary, print_expr_leaf. reflexivity.
  - reflexivity.
  - reflexivity.
Qed.

Lemma newlines_str (v : number) :
  (forall r, newlines (str_float r) = O) -> newlines (str v) = O.
Proof. intros Hfloat. destruct v as [z | r]; [apply newlines_str_int | apply Hfloat]. Qed.

Lemma print_expr_newlines (e : expr) (indent : Z) (newline : bool) :
  well_shaped e ->
  (forall r, newlines (str_float r) = O) ->
  newlines (print_expr e indent newline "") = (count_leaf e + count_binary e)%nat.
Proof.
  intros Hws Hfloat. revert indent newline.
  induction Hws as [v | c _ IH | op a b Hop _ IHa _ IHb]; intros indent newline.
  - rewrite print_expr_leaf.
    rewrite !newlines_app, newlines_spacing, newlines_nl, (newlines_str _ Hfloat).
    reflexivity.
  - rewrite print_expr_unary.
    rewrite !newlines_app, newlines_spacing, IH.
    rewrite (newlines_operator "neg") by (left; reflexivity).
    unfold Unary. cbn [count_leaf count_binary map list_sum fold_right List.length Nat.eqb].
    change (newlines "") with O. lia.
  - rewrite print_expr_binary.
    rewrite !newlines_app, newlines_spacing, newlines_nl, IHa, IHb.
    rewrite (newlines_operator op) by (right; exact Hop).
    unfold Binary. cbn [count_leaf count_binary map list_sum fold_right List.length Nat.eqb].
    change (newlines "") with O. lia.
Qed.


(** C7.  Once the command-line word is read as an integer, the script writes
    the line ["print"] before anything else, and then the generated tree at
    level [0] in newline mode. *)
Theorem main_prints_header_then_tree
        (fuel : nat) (argv : list string) (g : Random) (out : stdout)
        (word : string) (max_rec : Z) :
  nth_error argv 1 = Some word ->
  int_of_str word = Some max_rec ->
  (exists rest, fst (main fuel argv g out) = (out ++ "print" ++ nl ++ rest)%string) /\
  (forall e g',
     rand_expr fuel max_rec g = Ret e g' ->
     main fuel argv g out = (print_expr e 0 true (print "print" nl out), Ret tt g') /\
     fst (main fuel argv g out) =
     (out ++ "print" ++ nl ++ print_expr e 0 true "")%string).
Proof.
  intros Hword Hint. unfold main. rewrite Hword, Hint. split.
  - destruct (rand_expr fuel max_rec g) as [e g' | x | ]; simpl fst.
    + exists (print_expr e 0 true ""). rewrite print_expr_app. unfold print.
      rewrite !str_app_assoc. reflexivity.
    + exists ""%string. unfold print. rewrite str_app_nil_r. reflexivity.
    + exists ""%string. unfold print. rewrite str_app_nil_r. reflexivity.
  - intros e g' E. rewrite E. split; [reflexivity | ].
    simpl fst. rewrite print_expr_app. unfold print.
    rewrite !str_app_assoc. reflexivity.
Qed.

(** ** Shapes of generated trees *)

Lemma generate_expression_well_shaped (max_depth : Z) (g g' : Random) (e : expr) :
  generate_expression max_depth g e g' -> well_shaped e.
Proof.
  induction 1 as
    [d g r g1 v g2 Hr Htest Hv
    | d g r g1 c g2 op g3 Hr Hone _ IH Hop
    | d g r g1 a g2 b g3 op g4 Hr Htest Hr1 _ IHa _ IHb Hop].
  - apply ws_leaf.
  - apply ws_unary. exact IH.
  - apply ws_binary; [apply (choice_in _ _ _ _ Hop) | exact IHa | exact IHb].
Qed.

Lemma shape_branch (n : expr) (k : kind) : shape n k -> branch n = k.
Proof. intros [v | c | op a b Hop]; reflexivity. Qed.

Lemma shape_unique (n : expr) (k k' : kind) : shape n k -> shape n k' -> k' = k.
Proof.
  intros Hk Hk'. rewrite <- (shape_branch _ _ Hk), <- (shape_branch _ _ Hk').
  reflexivity.
Qed.

Lemma well_shaped_shape (e : expr) : well_shaped e -> exists k, shape e k.
Proof.
  intros [v | c Hc | op a b Hop Ha Hb].
  - exists KLeaf. apply shape_leaf.
  - exists KUnary. apply shape_unary.
  - exists KBinary. apply shape_binary. exact Hop.
Qed.

Lemma well_shaped_node (e n : expr) :
  well_shaped e -> node_of n e -> well_shaped n.
Proof.
  intros Hws Hnode. revert Hws.
  induction Hnode as [e | n op args a Hin _ IH]; intros Hws; [exact Hws | ].
  apply IH. inversion Hws as [v | c Hc | op' x y Hop Hx Hy]; subst.
  - destruct Hin as [<- | []]. exact Hc.
  - destruct Hin as [<- | [<- | []]]; assumption.
Qed.

Lemma print_expr_by_branch (e : expr) (indent : Z) (newline : bool) (out : stdout) :
  print_expr e indent newline out =
  match branch e, e with
  | KLeaf, Num v => print (spacing indent newline ++ str v) nl out
  | KUnary, PyList op (a :: _) =>
      print_expr a (indent + 1) false (print (spacing indent newline ++ op) "" out)
  | KBinary, PyList op args =>
      fold_left (fun o a => print_expr a (indent + 1) true o) args
                (print (spacing indent newline ++ op) nl out)
  | _, _ => out
  end.
Proof.
  destruct e as [v | op args]; [reflexivity | ].
  rewrite print_expr_list. unfold branch. cbn [is_number].
  destruct (len (PyList op args) =? 2) eqn:E; [ | reflexivity].
  destruct args as [ | a args]; [discriminate | reflexivity].
Qed.

(** C9.  Every node of a generated tree is a number, a list [["neg", child]]
    or a list [[op, left, right]] with [op] among ["add"], ["sub"], ["mult"],
    and never two of them; the printer, which tests for a number, then for a
    length of [2], then takes what is left, sends each of these nodes to the
    branch written for it. *)
Theorem generated_nodes_dispatch :
  (forall (fuel : nat) (max_rec : Z) (g g' : Random) (e n : expr),
     rand_expr fuel max_rec g = Ret e g' ->
     node_of n e ->
     exists k,
       shape n k /\ (forall k', shape n k' -> k' = k) /\ branch n = k) /\
  (forall (e : expr) (indent : Z) (newline : bool) (out : stdout),
     print_expr e indent newline out =
     match branch e, e with
     | KLeaf, Num v => print (spacing indent newline ++ str v) nl out
     | KUnary, PyList op (a :: _) =>
         print_expr a (indent + 1) false (print (spacing indent newline ++ op) "" out)
     | KBinary, PyList op args =>
         fold_left (fun o a => print_expr a (indent + 1) true o) args
                   (print (spacing indent newline ++ op) nl out)
     | _, _ => out
     end).
Proof.
  split; [ | apply print_expr_by_branch].
  intros fuel max_rec g g' e n E Hnode.
  assert (Hws : well_shaped n).
  { eapply well_shaped_node; [ | exact Hnode].
    eapply generate_expression_well_shaped. eapply rand_expr_sound. exact E. }
  destruct (well_shaped_shape _ Hws) as [k Hk].
  exists k. split; [exact Hk | ]. split.
  - intros k' Hk'. eapply shape_unique; eassumption.
  - apply shape_branch. exact Hk.
Qed.

(** * Further properties *)

(** ** The redraw loop *)

Lemma at_draw_advance (g : Random) : advance g = at_draw g (S (calls g)).
Proof. reflexivity. Qed.

Lemma rand_no_exp_first_sound (fuel : nat) (g g' : Random) (r : float) :
  rand_no_exp fuel g = Ret r g' ->
  exists m,
    (calls g <= m < calls g + fuel)%nat /\
    (forall k, (calls g <= k < m)%nat -> str_in "e" (str_float (reals g k)) = true) /\
    str_in "e" (str_float (reals g m)) = false /\
    r = reals g m /\ g' = at_draw g (S m).
Proof.
  revert g. induction fuel as [ | fuel IH]; intros g E; [discriminate | ].
  simpl in E. unfold bind, random in E.
  destruct (str_in "e" (str_float (reals g (calls g)))) eqn:He; simpl in E.
  - destruct (IH _ E) as (m & Hm & Hbefore & Hat & Hr & Hg').
    cbn [advance calls reals] in Hm, Hbefore, Hat, Hr.
    exists m. split; [lia | ]. split; [ | split; [exact Hat | split; [exact Hr | exact Hg']]].
    intros k Hk. destruct (Nat.eq_dec k (calls g)) as [-> | Hne]; [exact He | ].
    apply Hbefore. lia.
  - apply ret_inv in E as [<- <-]. exists (calls g).
    split; [lia | ]. split; [intros k Hk; lia | ].
    split; [exact He | split; reflexivity].
Qed.

Lemma rand_no_exp_first_complete (fuel : nat) (g : Random) (m : nat) :
  (calls g <= m < calls g + fuel)%nat ->
  (forall k, (calls g <= k < m)%nat -> str_in "e" (str_float (reals g k)) = true) ->
  str_in "e" (str_float (reals g m)) = false ->
  rand_no_exp fuel g = Ret (reals g m) (at_draw g (S m)).
Proof.
  revert g. induction fuel as [ | fuel IH]; intros g Hm Hbefore Hat; [lia | ].
  simpl. unfold bind, random.
  destruct (Nat.eq_dec m (calls g)) as [-> | Hne].
  - rewrite Hat. reflexivity.
  - rewrite (Hbefore (calls g)) by lia. simpl.
    apply (IH (advance g)).
    + cbn [advance calls]. lia.
    + intros k Hk. cbn [advance calls reals] in *. apply Hbefore. lia.
    + exact Hat.
Qed.

(** X1.  The redraw loop returns the first real of the stream, from the
    current draw on, whose rendering has no ["e"]; the reals before it are
    the ones it has thrown away, and the source is left just after it. *)
Theorem rand_no_exp_first_accepted (fuel : nat) (g g' : Random) (r : float) :
  rand_no_exp fuel g = Ret r g' <->
  exists m,
    (calls g <= m < calls g + fuel)%nat /\
    (forall k, (calls g <= k < m)%nat -> str_in "e" (str_float (reals g k)) = true) /\
    str_in "e" (str_float (reals g m)) = false /\
    r = reals g m /\ g' = at_draw g (S m).
Proof.
  split; [apply rand_no_exp_first_sound | ].
  intros (m & Hm & Hbefore & Hat & -> & ->).
  apply rand_no_exp_first_complete; assumption.
Qed.

(** ** Numbers without exponent *)

Lemma no_e_uint (d : Decimal.uint) :
  index 0 "e" (NilEmpty.string_of_uint d) = None.
Proof. induction d; simpl; try reflexivity; rewrite IHd; reflexivity. Qed.

Lemma str_int_no_e (z : Z) : str_in "e" (str_int z) = false.
Proof.
  unfold str_in, str_int, NilZero.string_of_int, NilZero.string_of_uint.
  destruct (Z.to_int z) as [d | d]; destruct d; simpl; try reflexivity;
    rewrite no_e_uint; reflexivity.
Qed.

Lemma leaf_ok_no_e (v : number) : leaf_ok v -> str_in "e" (str v) = false.
Proof. destruct v as [z | r]; simpl; [intros _; apply str_int_no_e | trivial]. Qed.

(** X2.  No number of a generated tree is rendered with an ["e"], be it an
    integer or a real: the printed tree holds no scientific notation. *)
Theorem generated_numbers_without_exponent
        (fuel : nat) (max_rec : Z) (g g' : Random) (e : expr) :
  rand_expr fuel max_rec g = Ret e g' ->
  Forall (fun v => str_in "e" (str v) = false) (leaf_values e).
Proof.
  intros E.
  apply rand_expr_sound, generate_expression_leaves in E.
  eapply Forall_impl; [ | exact E]. apply leaf_ok_no_e.
Qed.

(** ** The printer on every expression *)







(** ** Size of generated trees *)

Lemma well_shaped_counts (e : expr) :
  well_shaped e -> count_leaf e = S (count_binary e).
Proof.
  induction 1 as [v | c _ IH | op a b _ _ IHa _ IHb];
    unfold Leaf, Unary, Binary;
    cbn [count_leaf count_binary map list_sum fold_right List.length Nat.eqb]; lia.
Qed.

(** X5.  A generated tree has one Leaf more than it has Binary nodes, so it
    is printed on an odd number of lines, [2 * leaves - 1], and the script
    writes [2 * leaves] lines with its header.  (The rendering of a float
    holds no line end.) *)
Theorem generated_tree_line_parity
        (fuel : nat) (max_rec : Z) (g g' : Random) (e : expr)
        (indent : Z) (newline : bool) :
  rand_expr fuel max_rec g = Ret e g' ->
  (forall r, newlines (str_float r) = O) ->
  count_leaf e = S (count_binary e) /\
  S (newlines (print_expr e indent newline "")) = (2 * count_leaf e)%nat /\
  newlines (print_expr e 0 true (print "print" nl "")) = (2 * count_leaf e)%nat.
Proof.
  intros E Hfloat.
  assert (Hws : well_shaped e).
  { eapply generate_expression_well_shaped. eapply rand_expr_sound. exact E. }
  pose proof (well_shaped_counts _ Hws) as Hcount.
  split; [exact Hcount | ]. split.
  - rewrite (print_expr_newlines _ _ _ Hws Hfloat). lia.
  - rewrite print_expr_app, newlines_app, (print_expr_newlines _ _ _ Hws Hfloat).
    change (newlines (print "print" nl "")) with 1%nat. lia.
Qed.

Lemma generate_expression_leaf_bound (max_depth : Z) (g g' : Random) (e : expr) :
  generate_expression max_depth g e g' ->
  Z.of_nat (count_leaf e) <= 2 ^ Z.max 0 (max_depth - 1).
Proof.
  induction 1 as
    [d g r g1 v g2 Hr Htest Hv
    | d g r g1 c g2 op g3 Hr Hone _ IH Hop
    | d g r g1 a g2 b g3 op g4 Hr Htest Hr1 _ IHa _ IHb Hop];
    pose proof (randint_range _ _ _ _ _ Hr) as [Hrange _];
    unfold Leaf, Unary, Binary;
    cbn [count_leaf map list_sum fold_right].
  - pose proof (Z.pow_pos_nonneg 2 (Z.max 0 (d - 1))). lia.
  - assert (Hmono : 2 ^ Z.max 0 (d - 1 - 1) <= 2 ^ Z.max 0 (d - 1))
      by (apply Z.pow_le_mono_r; lia).
    lia.
  - assert (Hd : 2 <= d) by lia.
    replace (Z.max 0 (d - 1 - 1)) with (d - 2) in IHa, IHb by lia.
    replace (Z.max 0 (d - 1)) with (Z.succ (d - 2)) by lia.
    rewrite Z.pow_succ_r by lia. lia.
Qed.

(** X6.  A tree generated with bound [max_rec] has at most
    [2 ^ (max_rec - 1)] leaves, and a single one when [max_rec <= 1]: a Binary
    node needs a draw of [2] or more, so it never comes with a bound below
    [2].  Hence the tree has at most [2 ^ max_rec - 1] Leaf and Binary
    nodes once [max_rec >= 1]. *)
Theorem generated_tree_size
        (fuel : nat) (max_rec : Z) (g g' : Random) (e : expr) :
  rand_expr fuel max_rec g = Ret e g' ->
  Z.of_nat (count_leaf e) <= 2 ^ Z.max 0 (max_rec - 1) /\
  Z.of_nat (count_leaf e + count_binary e) <= 2 * 2 ^ Z.max 0 (max_rec - 1) - 1 /\
  (max_rec <= 1 -> count_leaf e = 1%nat /\ count_binary e = O).
Proof.
  intros E. apply rand_expr_sound in E.
  pose proof (generate_expression_leaf_bound _ _ _ _ E) as Hbound.
  pose proof (well_shaped_counts _ (generate_expression_well_shaped _ _ _ _ E))
    as Hcount.
  split; [exact Hbound | ]. split; [lia | ].
  intros Hle. replace (Z.max 0 (max_rec - 1)) with 0 in Hbound by lia.
  change (2 ^ 0) with 1 in Hbound. lia.
Qed.

(** ** The script *)

(** X7.  The script fails before writing anything when its argument is
    missing ([IndexError]) or is not an integer ([ValueError]); on a negative
    integer it has already written the line ["print"] when the generator
    raises [ValueError], and it writes nothing more. *)
Theorem main_failures (fuel : nat) (argv : list string) (g : Random) (out : stdout) :
  (nth_error argv 1 = None -> main fuel argv g out = (out, Raise IndexError)) /\
  (forall word,
     nth_error argv 1 = Some word -> int_of_str word = None ->
     main fuel argv g out = (out, Raise ValueError)) /\
  (forall word max_rec,
     nth_error argv 1 = Some word -> int_of_str word = Some max_rec ->
     max_rec < 0 ->
     main (S fuel) argv g out = ((out ++ "print" ++ nl)%string, Raise ValueError)).
Proof.
  unfold main. split; [ | split].
  - intros ->. reflexivity.
  - intros word -> ->. reflexivity.
  - intros word max_rec -> -> Hneg.
    cbn [rand_expr]. unfold bind. rewrite (randint_empty 0 max_rec g Hneg).
    reflexivity.
Qed.

(** ** The largest tree *)





End Properties.

(** * The generator on a bounded stack *)

Section StackProperties.

Context `{Builtins} `{Interpreter}.

Local Open Scope py_scope.

(** ** Where the stack does not overflow, it plays no part *)

Lemma unless_overflow_refl {A : Type} (m : M A) : unless_overflow m m.
Proof. intros g _. reflexivity. Qed.

Lemma unless_overflow_call {A : Type} (need frames : nat) (m : M A) :
  unless_overflow (call need frames m) m.
Proof.
  intros g. unfold call. destruct (frames <? need)%nat; [ | reflexivity].
  intros Hg. exfalso. apply Hg. reflexivity.
Qed.

Lemma unless_overflow_enter {A : Type} (frames : nat) (body : nat -> M A) (m : M A) :
  (forall inner, unless_overflow (body inner) m) ->
  unless_overflow (enter frames body) m.
Proof.
  intros Hbody g. destruct frames as [ | inner]; simpl.
  - intros Hg. exfalso. apply Hg. reflexivity.
  - apply Hbody.
Qed.

Lemma unless_overflow_bind {A B : Type} (m' m : M A) (k' k : A -> M B) :
  unless_overflow m' m -> (forall a, unless_overflow (k' a) (k a)) ->
  unless_overflow (bind m' k') (bind m k).
Proof.
  intros Hm Hk g. unfold bind. intros Hg.
  destruct (m' g) as [a g1 | x | ] eqn:E.
  - rewrite (Hm g) by (rewrite E; discriminate). rewrite E. apply Hk. exact Hg.
  - rewrite (Hm g) by (rewrite E; intros Ex; apply Hg; injection Ex as ->; reflexivity).
    rewrite E. reflexivity.
  - rewrite (Hm g) by (rewrite E; discriminate). rewrite E. reflexivity.
Qed.

Lemma rand_no_exp_loop_unless_overflow (fuel inner : nat) :
  unless_overflow (rand_no_exp_loop fuel inner) (rand_no_exp fuel).
Proof.
  induction fuel as [ | fuel IH]; [apply unless_overflow_refl | ].
  simpl. apply unless_overflow_bind; [apply unless_overflow_call | ].
  intros r g. unfold bind, call, ret.
  destruct (inner <? str_frames)%nat.
  - intros Hg. exfalso. apply Hg. reflexivity.
  - destruct (negb (str_in "e" (str_float r))); [reflexivity | apply IH].
Qed.

Lemma rand_val_framed_unless_overflow (fuel frames : nat) :
  unless_overflow (rand_val_framed fuel frames) (rand_val fuel).
Proof.
  apply unless_overflow_enter. intros inner. unfold rand_val.
  apply unless_overflow_bind; [apply unless_overflow_call | ].
  intros c. destruct (negb (c =? 0)).
  - apply unless_overflow_bind; [apply unless_overflow_call | ].
    intros z. apply unless_overflow_refl.
  - apply unless_overflow_bind; [ | intros r; apply unless_overflow_refl].
    apply unless_overflow_enter. intros inner'.
    apply rand_no_exp_loop_unless_overflow.
Qed.

Lemma rand_instr1_framed_unless_overflow (frames : nat) (a : expr) :
  unless_overflow (rand_instr1_framed frames a) (rand_instr1 a).
Proof.
  apply unless_overflow_enter. intros inner. unfold rand_instr1.
  apply unless_overflow_bind; [apply unless_overflow_call | ].
  intros op. apply unless_overflow_refl.
Qed.

Lemma rand_instr2_framed_unless_overflow (frames : nat) (a b : expr) :
  unless_overflow (rand_instr2_framed frames a b) (rand_instr2 a b).
Proof.
  apply unless_overflow_enter. intros inner. unfold rand_instr2.
  apply unless_overflow_bind; [apply unless_overflow_call | ].
  intros op. apply unless_overflow_refl.
Qed.

Lemma rand_expr_framed_unless_overflow (fuel frames : nat) (max_rec : Z) :
  unless_overflow (rand_expr_framed fuel frames max_rec) (rand_expr fuel max_rec).
Proof.
  revert frames max_rec.
  induction fuel as [ | fuel IH]; intros frames max_rec;
    [apply unless_overflow_refl | ].
  cbn [rand_expr_framed rand_expr].
  apply unless_overflow_enter. intros inner.
  apply unless_overflow_bind; [apply unless_overflow_call | ].
  intros r. destruct ((r =? 0) || (max_rec <=? 0)).
  - apply unless_overflow_bind;
      [apply rand_val_framed_unless_overflow | intros v; apply unless_overflow_refl].
  - destruct (r <=? 1).
    + apply unless_overflow_bind;
        [apply IH | intros a; apply rand_instr1_framed_unless_overflow].
    + apply unless_overflow_bind; [apply IH | ].
      intros a. apply unless_overflow_bind;
        [apply IH | intros b; apply rand_instr2_framed_unless_overflow].
Qed.

(** ** Frames that are enough *)

Lemma bind_congr {A B : Type} (m' m : M A) (k' k : A -> M B) (g : Random) :
  m' g = m g -> (forall a g1, k' a g1 = k a g1) -> bind m' k' g = bind m k g.
Proof.
  intros Hm Hk. unfold bind. rewrite Hm.
  destruct (m g) as [a g1 | x | ]; [apply Hk | reflexivity | reflexivity].
Qed.

Lemma call_enough {A : Type} (need frames : nat) (m : M A) :
  (need <= frames)%nat -> call need frames m = m.
Proof.
  intros Hle. unfold call.
  destruct (Nat.ltb_spec frames need) as [Hlt | _]; [lia | reflexivity].
Qed.

Lemma rand_no_exp_loop_enough (fuel inner : nat) (g : Random) :
  (Nat.max random_frames str_frames <= inner)%nat ->
  rand_no_exp_loop fuel inner g = rand_no_exp fuel g.
Proof.
  intros Hle. revert g. induction fuel as [ | fuel IH]; intros g; [reflexivity | ].
  simpl. rewrite call_enough by lia.
  apply bind_congr; [reflexivity | ].
  intros r g1. rewrite call_enough by lia. unfold bind at 1. unfold ret at 1.
  destruct (negb (str_in "e" (str_float r))); [reflexivity | apply IH].
Qed.

Lemma rand_val_framed_enough (fuel frames : nat) (g : Random) :
  (need_val <= frames)%nat -> rand_val_framed fuel frames g = rand_val fuel g.
Proof.
  unfold need_val, need_no_exp. intros Hle.
  destruct frames as [ | inner]; [lia | ].
  unfold rand_val_framed, rand_val. cbn [enter].
  rewrite call_enough by lia.
  apply bind_congr; [reflexivity | ].
  intros c g1. destruct (negb (c =? 0)); [rewrite call_enough by lia; reflexivity | ].
  apply bind_congr; [ | reflexivity].
  destruct inner as [ | inner']; [lia | ].
  unfold rand_no_exp_framed. cbn [enter].
  apply rand_no_exp_loop_enough. lia.
Qed.

Lemma rand_instr1_framed_enough (frames : nat) (a : expr) (g : Random) :
  (need_instr <= frames)%nat -> rand_instr1_framed frames a g = rand_instr1 a g.
Proof.
  unfold need_instr. intros Hle. destruct frames as [ | inner]; [lia | ].
  unfold rand_instr1_framed, rand_instr1. cbn [enter].
  rewrite call_enough by lia. reflexivity.
Qed.

Lemma rand_instr2_framed_enough (frames : nat) (a b : expr) (g : Random) :
  (need_instr <= frames)%nat -> rand_instr2_framed frames a b g = rand_instr2 a b g.
Proof.
  unfold need_instr. intros Hle. destruct frames as [ | inner]; [lia | ].
  unfold rand_instr2_framed, rand_instr2. cbn [enter].
  rewrite call_enough by lia. reflexivity.
Qed.

Lemma rand_expr_framed_enough (fuel frames : nat) (max_rec : Z) (g : Random) :
  (stack_need max_rec <= frames)%nat ->
  rand_expr_framed fuel frames max_rec g = rand_expr fuel max_rec g.
Proof.
  unfold stack_need. revert frames max_rec g.
  induction fuel as [ | fuel IH]; intros frames max_rec g Hle; [reflexivity | ].
  destruct frames as [ | inner]; [lia | ].
  assert (Hbelow : (need_below <= inner)%nat) by lia.
  unfold need_below in Hbelow.
  cbn [rand_expr_framed rand_expr enter].
  rewrite call_enough by lia.
  apply bind_congr; [reflexivity | ].
  intros r g1. destruct ((r =? 0) || (max_rec <=? 0)) eqn:Etest.
  - apply bind_congr; [apply rand_val_framed_enough; lia | reflexivity].
  - apply orb_false_iff in Etest as [_ Epos]. apply Z.leb_gt in Epos.
    assert (Hrec : (S (Z.to_nat (max_rec - 1)) + need_below <= inner)%nat).
    { lia. }
    destruct (r <=? 1).
    + apply bind_congr; [apply IH; exact Hrec | ].
      intros a g2. apply rand_instr1_framed_enough. lia.
    + apply bind_congr; [apply IH; exact Hrec | ].
      intros a g2. apply bind_congr; [apply IH; exact Hrec | ].
      intros b g3. apply rand_instr2_framed_enough. lia.
Qed.

(** ** Past the limit *)

Lemma descends_advance (frames : nat) (max_rec : Z) (g : Random) :
  descends (S frames) max_rec g -> descends frames (max_rec - 1) (advance g).
Proof.
  intros Hdesc k Hk. cbn [advance calls ints].
  replace (S (calls g) + k)%nat with (calls g + S k)%nat by lia.
  replace (max_rec - 1 - Z.of_nat k + 1) with (max_rec - Z.of_nat (S k) + 1) by lia.
  apply Hdesc. lia.
Qed.

Lemma rand_expr_framed_overflow (frames fuel : nat) (max_rec : Z) (g : Random) :
  Z.of_nat frames < max_rec ->
  descends frames max_rec g ->
  (rand_expr_framed fuel frames max_rec g = OutOfFuel \/
   rand_expr_framed fuel frames max_rec g = Raise RecursionError) /\
  ((frames < fuel)%nat ->
   rand_expr_framed fuel frames max_rec g = Raise RecursionError).
Proof.
  revert fuel max_rec g.
  induction frames as [ | frames IH]; intros fuel max_rec g Hd Hdesc.
  - destruct fuel as [ | fuel]; [split; [left; reflexivity | lia] | ].
    split; [right | intros _]; reflexivity.
  - destruct fuel as [ | fuel]; [split; [left; reflexivity | lia] | ].
    cbn [rand_expr_framed enter]. unfold call.
    destruct (frames <? randint_frames)%nat.
    { split; [right | intros _]; reflexivity. }
    rewrite (bind_ret_eq _ _ _ _ _ (randint_ok 0 max_rec g ltac:(lia))).
    pose proof (Hdesc O ltac:(lia)) as Hfirst.
    rewrite Nat.add_0_r in Hfirst. change (Z.of_nat 0) with 0 in Hfirst.
    set (r := 0 + Z.of_N (ints g (calls g)) mod (max_rec - 0 + 1)).
    assert (Hr : r <> 0) by (unfold r; lia).
    replace (r =? 0) with false by (symmetry; apply Z.eqb_neq; exact Hr).
    replace (max_rec <=? 0) with false by (symmetry; apply Z.leb_gt; lia).
    cbn [orb].
    destruct (IH fuel (max_rec - 1) (advance g) ltac:(lia) (descends_advance _ _ _ Hdesc))
      as [Hcases Hover].
    destruct (r <=? 1); unfold bind.
    + split.
      * destruct Hcases as [-> | ->]; [left | right]; reflexivity.
      * intros Hlt. rewrite Hover by lia. reflexivity.
    + split.
      * destruct Hcases as [-> | ->]; [left | right]; reflexivity.
      * intros Hlt. rewrite Hover by lia. reflexivity.
Qed.

(** C2, amended.  On a non-negative bound the generator raises neither
    [ValueError] nor [IndexError] and every tree it returns is at most
    [max_rec] deep.  It ends and returns such a tree when the stack has room
    for the [max_rec + 1] nested calls and the calls below the deepest, on a
    source whose reals do not render with an exponent for ever, as those of
    the library do not.  Past the recursion limit it can raise
    [RecursionError]: it does when the draws on the way down are not [0]. *)
Theorem rand_expr_framed_within_stack (frames : nat) (max_rec : Z) (g : Random) :
  0 <= max_rec ->
  (forall fuel,
     rand_expr_framed fuel frames max_rec g <> Raise ValueError /\
     rand_expr_framed fuel frames max_rec g <> Raise IndexError) /\
  (forall fuel e g',
     rand_expr_framed fuel frames max_rec g = Ret e g' ->
     Z.of_nat (depth e) <= max_rec) /\
  ((stack_need max_rec <= frames)%nat ->
   (forall fuel, rand_expr_framed fuel frames max_rec g <> Raise RecursionError) /\
   (redraw_ends g ->
    exists fuel e g',
      rand_expr_framed fuel frames max_rec g = Ret e g' /\
      Z.of_nat (depth e) <= max_rec)) /\
  (Z.of_nat frames < max_rec -> descends frames max_rec g ->
   forall fuel, (frames < fuel)%nat ->
     rand_expr_framed fuel frames max_rec g = Raise RecursionError).
Proof.
  intros Hd. split; [ | split; [ | split]].
  - intros fuel.
    split; intros E;
      [apply (rand_expr_no_raise fuel max_rec g ValueError Hd)
      | apply (rand_expr_no_raise fuel max_rec g IndexError Hd)];
      rewrite (rand_expr_framed_unless_overflow fuel frames max_rec g)
        by (rewrite E; discriminate);
      exact E.
  - intros fuel e g' E. eapply generate_expression_depth. eapply rand_expr_sound.
    rewrite (rand_expr_framed_unless_overflow fuel frames max_rec g)
      by (rewrite E; discriminate).
    exact E.
  - intros Hroom. split.
    + intros fuel. rewrite rand_expr_framed_enough by exact Hroom.
      apply rand_expr_no_raise. exact Hd.
    + intros Hends.
      destruct (generate_expression_total (Z.to_nat max_rec) g Hends)
        as (e & g' & Hgen).
      rewrite Z2Nat.id in Hgen by exact Hd.
      destruct (rand_expr_complete _ _ _ _ Hgen) as [fuel E].
      exists fuel, e, g'. split.
      * rewrite rand_expr_framed_enough by exact Hroom. exact E.
      * eapply generate_expression_depth. exact Hgen.
  - intros Hlt Hdesc fuel Hfuel.
    apply (rand_expr_framed_overflow frames fuel max_rec g Hlt Hdesc). exact Hfuel.
Qed.

(** C8.  With bound [0] the generator returns a Leaf, never a Unary or a
    Binary node, on every state of the random source: on every source whose
    reals do not render with an exponent for ever, as those of the library do
    not.  It does so on every stack with room for the call and the calls
    below it. *)
Theorem rand_expr_zero_leaf (g : Random) :
  redraw_ends g ->
  (exists fuel v g',
     rand_expr fuel 0 g = Ret (Leaf v) g' /\ leaf_ok v /\
     forall frames, (stack_need 0 <= frames)%nat ->
       rand_expr_framed fuel frames 0 g = Ret (Leaf v) g') /\
  (forall fuel e g', rand_expr fuel 0 g = Ret e g' -> exists v, e = Leaf v) /\
  (forall fuel frames e g',
     rand_expr_framed fuel frames 0 g = Ret e g' -> exists v, e = Leaf v).
Proof.
  intros Hends.
  assert (Hleaf : forall fuel e g',
             rand_expr fuel 0 g = Ret e g' -> exists v, e = Leaf v).
  { intros fuel e g' E.
    destruct (proj1 (rand_expr_zero g g' e) (ex_intro _ fuel E)) as (v & -> & _).
    exists v. reflexivity. }
  split; [ | split].
  - destruct (leaf_value_total (advance g)) as (v & g' & Hv).
    { eapply redraw_ends_same_reals; [ | exact Hends]. reflexivity. }
    destruct (proj2 (rand_expr_zero g g' (Leaf v))) as [fuel E].
    { exists v. split; [reflexivity | exact Hv]. }
    exists fuel, v, g'. split; [exact E | ]. split.
    + eapply leaf_value_ok. exact Hv.
    + intros frames Hroom. rewrite rand_expr_framed_enough by exact Hroom. exact E.
  - exact Hleaf.
  - intros fuel frames e g' E. apply (Hleaf fuel e g').
    rewrite (rand_expr_framed_unless_overflow fuel frames 0 g)
      by (rewrite E; discriminate).
    exact E.
Qed.

(** X8.  On a non-negative integer argument the script raises neither
    [ValueError] nor [IndexError], the errors its own calls can cause; when
    it finishes, what it has written is the line ["print"] followed by the
    whole tree, a tree of the three shapes at most [max_rec] deep. *)
Theorem main_nonnegative
        (argv : list string) (g : Random) (out : stdout) (word : string) (max_rec : Z) :
  nth_error argv 1 = Some word ->
  int_of_str word = Some max_rec ->
  0 <= max_rec ->
  (forall fuel,
     snd (main fuel argv g out) <> Raise ValueError /\
     snd (main fuel argv g out) <> Raise IndexError) /\
  (forall fuel g',
     snd (main fuel argv g out) = Ret tt g' ->
     exists e,
       rand_expr fuel max_rec g = Ret e g' /\
       fst (main fuel argv g out)
       = (out ++ "print" ++ nl ++ print_expr e 0 true "")%string /\
       well_shaped e /\ Z.of_nat (depth e) <= max_rec).
Proof.
  intros Hword Hint Hd. unfold main. rewrite Hword, Hint. split.
  - intros fuel.
    pose proof (rand_expr_no_raise fuel max_rec g) as Hno.
    destruct (rand_expr fuel max_rec g) as [e g' | y | ]; cbn [snd];
      try (split; discriminate).
    exfalso. exact (Hno y Hd eq_refl).
  - intros fuel g'.
    destruct (rand_expr fuel max_rec g) as [e g1 | y | ] eqn:E; cbn [snd fst];
      try discriminate.
    intros Eret. injection Eret as <-.
    apply rand_expr_sound in E as Hgen.
    exists e. split; [reflexivity | ]. split; [ | split].
    + rewrite print_expr_app. unfold print. rewrite !str_app_assoc. reflexivity.
    + eapply generate_expression_well_shaped. exact Hgen.
    + eapply generate_expression_depth. exact Hgen.
Qed.

End StackProperties.

(** * The properties on the sample builtins and sources *)

Import Sample.

Lemma mixed_redraw_ends : redraw_ends mixed.
Proof.
  intros n. exists (S (2 * n)). split; [lia | ].
  cbn [reals mixed]. rewrite Nat.even_succ, Nat.odd_mul. reflexivity.
Qed.

Lemma sample_str_one_line (r : sample_float) : newlines (sample_str r) = O.
Proof. destruct r; reflexivity. Qed.

(** The run of the generator with bound [2] on the source [mixed]. *)
Lemma rand_expr_refines_generate_expression_witness :
  0 <= 2 /\
  generate_expression 2 mixed
    (Binary "mult" (Unary "neg" (Leaf (PyInt (-994)))) (Leaf (PyInt (-990))))
    (Nat.iter 10 advance mixed).
Proof.
  split; [lia | ].
  destruct (rand_expr_refines_generate_expression 2 mixed ltac:(lia))
    as (r & _ & _ & Hall & _).
  apply (proj1 (Hall _ _)). exists 10%nat. reflexivity.
Defined.

(** The integer [7] as a leaf value. *)
Lemma rand_val_policy_witness :
  -1000 <= 7 <= 1000 /\
  exists g1 g2,
    reals g1 = reals mixed /\ calls g1 = calls mixed /\
    rand_val 0 g1 = Ret (PyInt 7) g2.
Proof.
  split; [lia | ].
  apply (proj1 (proj2 (proj2 rand_val_policy)) mixed 7). lia.
Defined.


(** The script called with the argument [3] on the source [mixed]. *)
Lemma main_prints_header_then_tree_witness :
  nth_error ["gen_expr.py"; "3"] 1 = Some "3" /\
  int_of_str "3" = Some 3 /\
  fst (main 10 ["gen_expr.py"; "3"] mixed "") =
  ("print" ++ nl ++ "add" ++ nl ++ " 0.5" ++ nl ++ " -992" ++ nl)%string.
Proof.
  split; [reflexivity | ]. split; [reflexivity | ].
  destruct (main_prints_header_then_tree
              10 ["gen_expr.py"; "3"] mixed "" "3" 3 eq_refl eq_refl) as [_ Hrun].
  refine (proj2 (Hrun (Binary "add" (Leaf (PyFloat half)) (Leaf (PyInt (-992))))
                      (Nat.iter 8 advance mixed) _)).
  reflexivity.
Defined.

(** The ["neg"] node of the tree generated with bound [2] on [mixed]. *)
Lemma generated_nodes_dispatch_witness :
  rand_expr 10 2 mixed =
  Ret (Binary "mult" (Unary "neg" (Leaf (PyInt (-994)))) (Leaf (PyInt (-990))))
      (Nat.iter 10 advance mixed) /\
  node_of (Unary "neg" (Leaf (PyInt (-994))))
          (Binary "mult" (Unary "neg" (Leaf (PyInt (-994)))) (Leaf (PyInt (-990)))) /\
  exists k,
    shape (Unary "neg" (Leaf (PyInt (-994)))) k /\
    (forall k', shape (Unary "neg" (Leaf (PyInt (-994)))) k' -> k' = k) /\
    branch (Unary "neg" (Leaf (PyInt (-994)))) = k.
Proof.
  assert (Hnode : node_of (Unary "neg" (Leaf (PyInt (-994))))
                          (Binary "mult" (Unary "neg" (Leaf (PyInt (-994))))
                                  (Leaf (PyInt (-990))))).
  { eapply node_arg; [left; reflexivity | apply node_self]. }
  split; [reflexivity | ]. split; [exact Hnode | ].
  exact (proj1 generated_nodes_dispatch 10%nat 2 mixed _ _ _ eq_refl Hnode).
Defined.

(** The bound [-1]. *)
Lemma rand_expr_negative_raises_witness :
  -1 < 0 /\ rand_expr 1 (-1) mixed = Raise ValueError.
Proof.
  split; [lia | ].
  exact (proj1 (proj2 (proj1 (rand_expr_negative_raises (-1) mixed) ltac:(lia))) O).
Defined.

(** ** The further properties on the samples *)

(** On [mixed] the first real is thrown away and the second is kept. *)
Lemma rand_no_exp_first_accepted_witness :
  rand_no_exp 2 mixed = Ret half (at_draw mixed 2).
Proof.
  apply (proj2 (rand_no_exp_first_accepted 2 mixed (at_draw mixed 2) half)).
  exists 1%nat. split; [cbn [calls mixed]; lia | ]. split.
  - intros k Hk. cbn [calls mixed] in Hk.
    assert (Hk0 : k = O) by lia. subst k. reflexivity.
  - split; [reflexivity | split; reflexivity].
Defined.

(** The numbers of the tree generated with bound [2] on [mixed]. *)
Lemma generated_numbers_without_exponent_witness :
  rand_expr 10 2 mixed =
  Ret (Binary "mult" (Unary "neg" (Leaf (PyInt (-994)))) (Leaf (PyInt (-990))))
      (Nat.iter 10 advance mixed) /\
  Forall (fun v => str_in "e" (str v) = false) [PyInt (-994); PyInt (-990)].
Proof.
  split; [reflexivity | ].
  exact (generated_numbers_without_exponent 10 2 mixed _ _ eq_refl).
Defined.


(** The tree generated with bound [2] on [mixed]: two leaves, three lines,
    four with the header. *)
Lemma generated_tree_line_parity_witness :
  rand_expr 10 2 mixed =
  Ret (Binary "mult" (Unary "neg" (Leaf (PyInt (-994)))) (Leaf (PyInt (-990))))
      (Nat.iter 10 advance mixed) /\
  (forall r, newlines (str_float r) = O) /\
  newlines (print_expr
              (Binary "mult" (Unary "neg" (Leaf (PyInt (-994)))) (Leaf (PyInt (-990))))
              0 true (print "print" nl "")) = 4%nat.
Proof.
  split; [reflexivity | ]. split; [exact sample_str_one_line | ].
  exact (proj2 (proj2 (generated_tree_line_parity 10 2 mixed _ _ 0 true eq_refl
                         sample_str_one_line))).
Defined.

(** The tree generated with bound [2] on [mixed] has at most two leaves. *)
Lemma generated_tree_size_witness :
  rand_expr 10 2 mixed =
  Ret (Binary "mult" (Unary "neg" (Leaf (PyInt (-994)))) (Leaf (PyInt (-990))))
      (Nat.iter 10 advance mixed) /\
  Z.of_nat (count_leaf
              (Binary "mult" (Unary "neg" (Leaf (PyInt (-994)))) (Leaf (PyInt (-990)))))
  <= 2 ^ Z.max 0 (2 - 1).
Proof.
  split; [reflexivity | ].
  exact (proj1 (generated_tree_size 10 2 mixed _ _ eq_refl)).
Defined.

(** The script called with the argument [-1]. *)
Lemma main_failures_witness :
  nth_error ["gen_expr.py"; "-1"] 1 = Some "-1" /\
  int_of_str "-1" = Some (-1) /\
  -1 < 0 /\
  main 1 ["gen_expr.py"; "-1"] mixed "" = (("print" ++ nl)%string, Raise ValueError).
Proof.
  split; [reflexivity | ]. split; [reflexivity | ]. split; [lia | ].
  exact (proj2 (proj2 (main_failures 0 ["gen_expr.py"; "-1"] mixed ""))
               "-1" (-1) eq_refl eq_refl ltac:(lia)).
Defined.



(** ** The bounded stack on the samples *)

(** Bound [2] on [mixed], with [999] calls allowed. *)
Lemma rand_expr_framed_within_stack_witness :
  0 <= 2 /\ (stack_need 2 <= 999)%nat /\ redraw_ends mixed /\
  exists fuel e g',
    rand_expr_framed fuel 999 2 mixed = Ret e g' /\ Z.of_nat (depth e) <= 2.
Proof.
  assert (Hroom : (stack_need 2 <= 999)%nat) by (vm_compute; lia).
  split; [lia | ]. split; [exact Hroom | ]. split; [exact mixed_redraw_ends | ].
  exact (proj2 (proj1 (proj2 (proj2
                 (rand_expr_framed_within_stack 999 2 mixed ltac:(lia)))) Hroom)
               mixed_redraw_ends).
Defined.

Lemma twos_descends : descends 999 2000 twos.
Proof.
  intros k Hk. cbn [ints twos]. change (Z.of_N 2) with 2.
  rewrite Z.mod_small by lia. lia.
Qed.

(** Bound [2000] with [999] calls allowed, as in the script under the default
    limit of [1000]: on [twos] the generator raises [RecursionError] and
    returns nothing. *)
Lemma rand_expr_framed_overflows_at_2000 :
  0 <= 2000 /\
  rand_expr_framed 1000 999 2000 twos = Raise RecursionError /\
  (forall fuel e g', rand_expr_framed fuel 999 2000 twos <> Ret e g').
Proof.
  split; [lia | ]. split.
  - apply (rand_expr_framed_overflow 999 1000 2000 twos); [lia | exact twos_descends | lia].
  - intros fuel e g' E.
    destruct (proj1 (rand_expr_framed_overflow 999 fuel 2000 twos ltac:(lia) twos_descends))
      as [E' | E']; rewrite E' in E; discriminate.
Qed.

(** With bound [0] the source [mixed] yields a Leaf. *)
Lemma rand_expr_zero_leaf_witness :
  redraw_ends mixed /\
  exists fuel v g',
    rand_expr fuel 0 mixed = Ret (Leaf v) g' /\ leaf_ok v /\
    forall frames, (stack_need 0 <= frames)%nat ->
      rand_expr_framed fuel frames 0 mixed = Ret (Leaf v) g'.
Proof.
  split; [exact mixed_redraw_ends | ].
  exact (proj1 (rand_expr_zero_leaf mixed mixed_redraw_ends)).
Defined.

(** The script called with the argument [3] on the source [mixed]. *)
Lemma main_nonnegative_witness :
  nth_error ["gen_expr.py"; "3"] 1 = Some "3" /\
  int_of_str "3" = Some 3 /\
  0 <= 3 /\
  snd (main 10 ["gen_expr.py"; "3"] mixed "") = Ret tt (Nat.iter 8 advance mixed) /\
  exists e,
    rand_expr 10 3 mixed = Ret e (Nat.iter 8 advance mixed) /\
    fst (main 10 ["gen_expr.py"; "3"] mixed "")
    = ("" ++ "print" ++ nl ++ print_expr e 0 true "")%string /\
    well_shaped e /\ Z.of_nat (depth e) <= 3.
Proof.
  split; [reflexivity | ]. split; [reflexivity | ]. split; [lia | ].
  split; [reflexivity | ].
  exact (proj2 (main_nonnegative ["gen_expr.py"; "3"] mixed "" "3" 3
                  eq_refl eq_refl ltac:(lia))
               10%nat (Nat.iter 8 advance mixed) eq_refl).
Defined.
